(** * Flow past a cylinder: a model of [examples/CFD/cylinder2d.py]

    The script sets up a 2D lattice Boltzmann channel with an immersed
    cylinder, installs four boundary conditions, and on sampled steps
    prints a convergence error and the lift and drag coefficients while
    keeping their running maxima.

    Python's numbers are kept apart as the script has them: [int] values are
    [Z]; [float] values live in a carrier [T] with the operations the script
    uses.  The carrier is instantiated twice: with Rocq's primitive binary64
    floats, which is what the interpreter computes, and with the real
    numbers, which is the arithmetic the formulas are meant in.  General
    statements are proved over the reals; concrete inputs are also evaluated
    on floats.

    Conventions:
    - a Python exception is [None] in the [option] monad;
    - arrays are lists, an array of shape [(n, 2)] a list of pairs, an array
      of shape [(nx, ny, 2)] a list of rows of pairs; the rows of an array
      have one length, and an array without rows is kept with width 0;
    - where NumPy combines two arrays entry by entry it first broadcasts
      them to one shape, and raises if it cannot;
    - [np.sum] adds from the left (NumPy adds pairwise, which is the same
      number over the reals);
    - division is the carrier's: IEEE division on floats, and Rocq's total
      division on the reals, so a statement over the reals says nothing
      about inf and nan;
    - the solver library ([BGKSim], the boundary-condition classes,
      [save_image]) is not part of the script: what the script needs of it
      (the bounding-box index sets, [momentum_exchange_force], the calls of
      the hook) is a parameter of the model, the boundary-condition
      constructors and [save_image] are recorded as data, and what the
      constructor of [BGKSim] leaves behind is modelled from the
      specification where the main block needs it. *)

From Stdlib Require Import Floats.
From Stdlib Require Import Bool String ZArith List Reals Lra Lia.
Import ListNotations.

Set Implicit Arguments.

(** ** The numeric carrier *)

Declare Scope S_scope.
Delimit Scope S_scope with S.

Class Scalar (T : Type) := {
  s_add : T -> T -> T;
  s_sub : T -> T -> T;
  s_mul : T -> T -> T;
  s_div : T -> T -> T;
  s_sqrt : T -> T;
  s_abs : T -> T;
  (** [a < b] and [a <= b] as Python evaluates them *)
  s_ltb : T -> T -> bool;
  s_leb : T -> T -> bool;
  (** [np.maximum(a, b)] *)
  s_maximum : T -> T -> T;
  (** the conversion [float(n)] Python inserts when an [int] meets a [float] *)
  of_Z : Z -> T;
  (** [int(x)]: truncation toward zero, an error on inf and nan *)
  s_trunc : T -> option Z
}.

Infix "+" := s_add : S_scope.
Infix "-" := s_sub : S_scope.
Infix "*" := s_mul : S_scope.
Infix "/" := s_div : S_scope.
Infix "<?" := s_ltb : S_scope.
Infix "<=?" := s_leb : S_scope.

(** A decimal literal [n/d] with [d] a power of ten, such as [0.003] or
    [4.1].  On floats the quotient of two exactly represented integers is
    correctly rounded, which is the value the literal denotes. *)
Definition dec {T} `{Scalar T} (n d : Z) : T := (of_Z n / of_Z d)%S.

(** [x ** 2] *)
Definition sq {T} `{Scalar T} (x : T) : T := (x * x)%S.

(** Python's builtin [max(a, b)]: the first argument unless the second is
    strictly greater. *)
Definition py_max {T} `{Scalar T} (a b : T) : T := if (a <? b)%S then b else a.

(** *** Real numbers *)

Definition Rltb (a b : R) : bool := if Rlt_dec a b then true else false.
Definition Rleb (a b : R) : bool := if Rle_dec a b then true else false.

Definition Rtrunc (r : R) : option Z :=
  Some (if Rle_dec 0 r then Int_part r else (- Int_part (- r))%Z).

#[export] Instance R_scalar : Scalar R := {|
  s_add := Rplus; s_sub := Rminus; s_mul := Rmult; s_div := Rdiv;
  s_sqrt := sqrt; s_abs := Rabs;
  s_ltb := Rltb; s_leb := Rleb;
  s_maximum := Rmax;
  of_Z := IZR;
  s_trunc := Rtrunc
|}.

(** *** Binary64 floats *)

(** Exact for [|z| < 2^53], which covers every integer of the script. *)
Definition float_of_Z (z : Z) : float :=
  if (0 <=? z)%Z then PrimFloat.of_uint63 (Uint63.of_Z z)
  else PrimFloat.opp (PrimFloat.of_uint63 (Uint63.of_Z (- z))).

Definition float_trunc (f : float) : option Z :=
  match Prim2SF f with
  | S754_zero _ => Some 0%Z
  | S754_infinity _ | S754_nan => None
  | S754_finite s m e =>
      let v := if (0 <=? e)%Z then (Zpos m * 2 ^ e)%Z
               else (Zpos m / 2 ^ (- e))%Z in
      Some (if s then (- v)%Z else v)
  end.

(** [np.maximum] propagates nan. *)
Definition float_maximum (a b : float) : float :=
  if PrimFloat.is_nan a then a
  else if PrimFloat.is_nan b then b
  else if PrimFloat.ltb a b then b else a.

#[export] Instance float_scalar : Scalar float := {|
  s_add := PrimFloat.add; s_sub := PrimFloat.sub;
  s_mul := PrimFloat.mul; s_div := PrimFloat.div;
  s_sqrt := PrimFloat.sqrt; s_abs := PrimFloat.abs;
  s_ltb := PrimFloat.ltb; s_leb := PrimFloat.leb;
  s_maximum := float_maximum;
  of_Z := float_of_Z;
  s_trunc := float_trunc
|}.

(** ** The error monad

    A Python exception ([IndexError], [AttributeError], [ValueError], ...)
    is [None]. *)

Definition bind {A B} (m : option A) (k : A -> option B) : option B :=
  match m with Some a => k a | None => None end.

Notation "x <- m ;; k" := (bind m (fun x => k))
  (at level 61, m at next level, right associativity).
Notation "' p <- m ;; k" := (bind m (fun x => let p := x in k))
  (at level 61, p pattern, m at next level, right associativity).

(** ** NumPy and Python helpers *)

Module Np.

(** [range(n)] *)
Definition range (n : Z) : list Z := map Z.of_nat (seq 0 (Z.to_nat n)).

(** [l[1:-1]] *)
Definition slice_1_m1 {A} (l : list A) : list A := removelast (tl l).

(** [a[..., 1:-1, :]] on an array of shape [(nx, ny, 2)] *)
Definition inner {A} (a : list (list A)) : list (list A) :=
  map (@slice_1_m1 A) a.

(** [a[i]] with NumPy's wrap-around of negative indices *)
Definition get {A} (l : list A) (i : Z) : option A :=
  let n := Z.of_nat (length l) in
  if (0 <=? i)%Z then nth_error l (Z.to_nat i)
  else if (- n <=? i)%Z then nth_error l (Z.to_nat (n + i))
  else None.

Definition get2 {A} (a : list (list A)) (i j : Z) : option A :=
  row <- get a i ;; get row j.

(** [np.reshape(l, (rows, cols))] *)
Fixpoint chunks {A} (rows cols : nat) (l : list A) : list (list A) :=
  match rows with
  | O => []
  | S r => firstn cols l :: chunks r cols (skipn cols l)
  end.

Definition reshape {A} (l : list A) (rows cols : Z) : option (list (list A)) :=
  if ((0 <=? rows) && (0 <=? cols) &&
      (Z.of_nat (length l) =? rows * cols))%Z
  then Some (chunks (Z.to_nat rows) (Z.to_nat cols) l)
  else None.

(** [tuple(a.T)] for an index array of shape [(n, 2)] *)
Definition transpose (a : list (Z * Z)) : list Z * list Z :=
  (map fst a, map snd a).

(** [a.min()] and [a.max()]: an error on an empty array *)
Definition min (l : list Z) : option Z :=
  match l with [] => None | x :: r => Some (fold_left Z.min r x) end.
Definition max (l : list Z) : option Z :=
  match l with [] => None | x :: r => Some (fold_left Z.max r x) end.

(** The shape of a 2D array.  An array is kept as the list of its rows,
    which all have one length; an array without rows is kept with
    width 0. *)
Definition shape2 {A} (a : list (list A)) : nat * nat :=
  (length a, match a with [] => 0%nat | row :: _ => length row end).

(** Broadcasting along one axis: equal lengths stay, a length of 1 is
    stretched to the other length, and any other pair of lengths is a
    [ValueError]. *)
Definition bdim (m n : nat) : option nat :=
  if Nat.eqb m n then Some m
  else if Nat.eqb m 1 then Some n
  else if Nat.eqb n 1 then Some m
  else None.

(** An axis of length 1 repeated to length [n]; an axis of another length
    stays. *)
Definition stretch {A} (n : nat) (l : list A) : list A :=
  match l with [x] => repeat x n | _ => l end.

(** [np.broadcast_to(a, shape)] for a shape that [a] broadcasts to *)
Definition broadcast_to {A} (shape : nat * nat) (a : list (list A))
  : list (list A) :=
  map (stretch (snd shape)) (stretch (fst shape) a).

Section Num.
Context {T : Type} `{Scalar T}.

(** [np.sum] of a flat array *)
Definition sum (l : list T) : T := fold_left s_add l (of_Z 0).

(** [np.sum] of a 2D array: all entries, row after row *)
Definition sum2 (a : list (list T)) : T := sum (concat a).

(** [np.sum(a, axis=0)] for an array of shape [(n, 2)] *)
Definition sum_axis0 (a : list (T * T)) : T * T :=
  (sum (map fst a), sum (map snd a)).

(** [np.linalg.norm(a, axis=2)] for an array of shape [(nx, ny, 2)] *)
Definition norm2 (v : T * T) : T :=
  s_sqrt (fst v * fst v + snd v * snd v)%S.
Definition norm_axis2 (a : list (list (T * T))) : list (list T) :=
  map (map norm2) a.

(** [np.abs(a - b)]: NumPy first broadcasts the two operands to one shape
    (raising [ValueError] when it cannot), then takes the difference entry
    by entry *)
Definition abs_diff (a b : list (list T)) : option (list (list T)) :=
  rows <- bdim (fst (shape2 a)) (fst (shape2 b)) ;;
  cols <- bdim (snd (shape2 a)) (snd (shape2 b)) ;;
  let a := broadcast_to (rows, cols) a in
  let b := broadcast_to (rows, cols) b in
  Some (map (fun rs => map (fun xy => s_abs (fst xy - snd xy)%S)
                           (combine (fst rs) (snd rs)))
            (combine a b)).

(** [np.zeros((n, 2))] *)
Definition zeros2 (n : nat) : list (T * T) := repeat (of_Z 0, of_Z 0) n.

(** [a[:, 0] = col] *)
Definition set_col0 (a : list (T * T)) (col : list T) : list (T * T) :=
  map (fun vc => (snd vc, snd (fst vc))) (combine a col).
End Num.

End Np.

(** ** The inlet profile

    [poiseuille_profile = lambda x,x0,d,umax:
       np.maximum(0., 4.*umax/(d**2)*((x-x0)*d-(x-x0)**2))] *)

Definition poiseuille_profile {T} `{Scalar T} (x x0 d umax : T) : T :=
  s_maximum (of_Z 0)
    (of_Z 4 * umax / sq d * ((x - x0) * d - sq (x - x0)))%S.

(** ** The simulation object *)

(** The names the script binds at module level inside its sweep and reads
    from the methods: [diam], [prescribed_vel], [t_max]. *)
Record Globals (T : Type) := {
  diam : Z;
  prescribed_vel : T;
  t_max : Z
}.

(** [self.boundingBoxIndices]: index arrays of shape [(n, 2)] under the keys
    the script reads. *)
Record BoundingBox := {
  bb_left : list (Z * Z);
  bb_right : list (Z * Z);
  bb_top : list (Z * Z);
  bb_bottom : list (Z * Z)
}.

Fixpoint mapM {A B} (f : A -> option B) (l : list A) : option (list B) :=
  match l with
  | [] => Some []
  | a :: r => b <- f a ;; bs <- mapM f r ;; Some (b :: bs)
  end.

Section Model.
Context {T : Type} `{Scalar T}.

(** [self.gridInfo] and [self.precisionPolicy] are handed on to the
    boundary conditions untouched; the populations are only handed to
    [momentum_exchange_force]. *)
Variables GridInfo PrecisionPolicy Pop : Type.

(** The boundary conditions the script constructs, with the arguments in
    the order of the calls. *)
Inductive BC :=
| InterpolatedBounceBackBouzidi
    (indices : list Z * list Z) (implicit_distances : list (list T))
    (gridInfo : GridInfo) (precisionPolicy : PrecisionPolicy)
| ExtrapolationOutflow
    (indices : list Z * list Z)
    (gridInfo : GridInfo) (precisionPolicy : PrecisionPolicy)
| Regularized
    (indices : list Z * list Z)
    (gridInfo : GridInfo) (precisionPolicy : PrecisionPolicy)
    (type : string) (prescribed : list (T * T)).

Definition bc_indices (b : BC) : list Z * list Z :=
  match b with
  | InterpolatedBounceBackBouzidi i _ _ _ => i
  | ExtrapolationOutflow i _ _ => i
  | Regularized i _ _ _ _ => i
  end.

(** Node [(i, j)] is one of the nodes a condition governs. *)
Definition governs (b : BC) (i j : Z) : Prop :=
  In (i, j) (combine (fst (bc_indices b)) (snd (bc_indices b))).

(** [BoundaryCondition.momentum_exchange_force(f_poststreaming,
    f_postcollision)] lives in the library; the script needs of it that it
    returns an array of shape [(n, 2)]. *)
Variable momentum_exchange_force : BC -> Pop -> Pop -> option (list (T * T)).

Record Sim := {
  nx : Z;
  ny : Z;
  gridInfo : GridInfo;
  precisionPolicy : PrecisionPolicy;
  boundingBoxIndices : BoundingBox;
  BCs : list BC;
  (** attributes [output_data] creates at timestep 0 *)
  CL_max : option T;
  CD_max : option T
}.

Definition with_BCs (self : Sim) (l : list BC) : Sim :=
  {| nx := nx self; ny := ny self; gridInfo := gridInfo self;
     precisionPolicy := precisionPolicy self;
     boundingBoxIndices := boundingBoxIndices self;
     BCs := l; CL_max := CL_max self; CD_max := CD_max self |}.

Definition with_max (self : Sim) (cl cd : option T) : Sim :=
  {| nx := nx self; ny := ny self; gridInfo := gridInfo self;
     precisionPolicy := precisionPolicy self;
     boundingBoxIndices := boundingBoxIndices self;
     BCs := BCs self; CL_max := cl; CD_max := cd |}.

(** *** [Cylinder.set_boundary_conditions] *)

(** [coord = np.array([(i, j) for i in range(nx) for j in range(ny)])] *)
Definition coord (nx ny : Z) : list (Z * Z) :=
  flat_map (fun i => map (fun j => (i, j)) (Np.range ny)) (Np.range nx).

(** [cx, cy = 2.*diam, 2.*diam] *)
Definition centre (g : Globals T) : T * T :=
  ((of_Z 2 * of_Z (diam g))%S, (of_Z 2 * of_Z (diam g))%S).

(** [(xx - cx)**2 + (yy - cy)**2], elementwise over the two coordinate
    arrays *)
Definition node_dist2 (g : Globals T) (xy : Z * Z) : T :=
  let cx := fst (centre g) in
  let cy := snd (centre g) in
  (sq (of_Z (fst xy) - cx) + sq (of_Z (snd xy) - cy))%S.

Definition dist2 (g : Globals T) (xx yy : list Z) : list T :=
  map (node_dist2 g) (combine xx yy).

(** [(diam/2.)**2] *)
Definition radius2 (g : Globals T) : T := sq (of_Z (diam g) / of_Z 2)%S.

(** [a[mask]] *)
Definition select {A} (a : list A) (mask : list bool) : list A :=
  map fst (filter snd (combine a mask)).

(** [a[tuple(idx.T)]] on a 2D array *)
Definition take2 {A} (a : list (list A)) (idx : list Z * list Z)
  : option (list A) :=
  mapM (fun ij => Np.get2 a (fst ij) (snd ij)) (combine (fst idx) (snd idx)).

Definition set_boundary_conditions (g : Globals T) (self : Sim)
  : option Sim :=
  (* Define the cylinder surface *)
  let coord := coord (nx self) (ny self) in
  (* [coord[:, 0]] needs two axes: an empty list gives shape [(0,)] *)
  if Nat.eqb (length coord) 0 then None else
  let xx := map fst coord in
  let yy := map snd coord in
  let cylinder := map (fun v => (v <=? radius2 g)%S) (dist2 g xx yy) in
  let cylinder := select coord cylinder in
  implicit_distance <-
    Np.reshape (map (fun v => (v - radius2 g)%S) (dist2 g xx yy))
               (nx self) (ny self) ;;
  let bcs := BCs self ++
    [InterpolatedBounceBackBouzidi (Np.transpose cylinder) implicit_distance
       (gridInfo self) (precisionPolicy self)] in
  (* Outflow BC *)
  let outlet := bb_right (boundingBoxIndices self) in
  let bcs := bcs ++
    [ExtrapolationOutflow (Np.transpose outlet)
       (gridInfo self) (precisionPolicy self)] in
  (* Inlet BC *)
  let inlet := bb_left (boundingBoxIndices self) in
  let vel_inlet := Np.zeros2 (length inlet) in
  yy2 <- Np.reshape yy (nx self) (ny self) ;;
  yy_inlet <- take2 yy2 (Np.transpose inlet) ;;
  ymin <- Np.min yy_inlet ;;
  ymax <- Np.max yy_inlet ;;
  let vel_inlet :=
    Np.set_col0 vel_inlet
      (map (fun y => poiseuille_profile (of_Z y) (of_Z ymin)
                       (of_Z (ymax - ymin))
                       (of_Z 3 / of_Z 2 * prescribed_vel g)%S)
           yy_inlet) in
  let bcs := bcs ++
    [Regularized (Np.transpose inlet) (gridInfo self) (precisionPolicy self)
       "velocity" vel_inlet] in
  (* No-slip BC for top and bottom *)
  let wall := bb_top (boundingBoxIndices self)
              ++ bb_bottom (boundingBoxIndices self) in
  let vel_wall := Np.zeros2 (length wall) in
  let bcs := bcs ++
    [Regularized (Np.transpose wall) (gridInfo self) (precisionPolicy self)
       "velocity" vel_wall] in
  Some (with_BCs self bcs).

(** *** [Cylinder.output_data] *)

(** The keyword arguments the hook reads.  [rho], [u] and [u_prev] have
    shapes [(nx, ny, 1)] and [(nx, ny, 2)]; the two population arrays are
    present only when the solver kept them. *)
Record Kwargs := {
  rho : list (list T);
  u : list (list (T * T));
  timestep : Z;
  u_prev : list (list (T * T));
  f_poststreaming : option Pop;
  f_postcollision : option Pop
}.

(** What a call shows: the printed line and the image it saves. *)
Inductive Event :=
| Print (err cl cd : T)
| SaveImage (timestep : Z) (u : list (list (T * T))).

(** [err = np.sum(np.abs(u_old - u_new))] over the norms along axis 2 *)
Definition error (u_prev u : list (list (T * T))) : option T :=
  let u_old := Np.norm_axis2 u_prev in
  let u_new := Np.norm_axis2 u in
  d <- Np.abs_diff u_old u_new ;;
  Some (Np.sum2 d).

(** [2. * force / (prescribed_vel ** 2 * diam)] *)
Definition coefficient (g : Globals T) (force : T) : T :=
  (of_Z 2 * force / (sq (prescribed_vel g) * of_Z (diam g)))%S.

(** [timestep > 0.8 * t_max] *)
Definition sampled (g : Globals T) (timestep : Z) : bool :=
  (dec 8 10 * of_Z (t_max g) <? of_Z timestep)%S.

Definition output_data (g : Globals T) (self : Sim) (kwargs : Kwargs)
  : option (Sim * list Event) :=
  (* 1:-1 to remove boundary voxels *)
  let rho := Np.inner (rho kwargs) in
  let u := Np.inner (u kwargs) in
  let timestep := timestep kwargs in
  let u_prev := Np.inner (u_prev kwargs) in
  let self :=
    if (timestep =? 0)%Z
    then with_max self (Some (of_Z 0)) (Some (of_Z 0))
    else self in
  if sampled g timestep then
    (* compute lift and drag over the cylinder *)
    cylinder <- nth_error (BCs self) 0 ;;
    fps <- f_poststreaming kwargs ;;
    fpc <- f_postcollision kwargs ;;
    boundary_force <- momentum_exchange_force cylinder fps fpc ;;
    let boundary_force := Np.sum_axis0 boundary_force in
    let drag := fst boundary_force in
    let lift := snd boundary_force in
    let cd := coefficient g drag in
    let cl := coefficient g lift in
    err <- error u_prev u ;;
    CL <- CL_max self ;;
    CD <- CD_max self ;;
    Some (with_max self (Some (py_max CL cl)) (Some (py_max CD cd)),
          [Print err cl cd; SaveImage timestep u])
  else Some (self, []).

(** The hook's effect over a run: the solver calls it once per output
    step, in order. *)
Fixpoint run_output (g : Globals T) (self : Sim) (calls : list Kwargs)
  : option (Sim * list Event) :=
  match calls with
  | [] => Some (self, [])
  | kw :: rest =>
      r1 <- output_data g self kw ;;
      r2 <- run_output g (fst r1) rest ;;
      Some (fst r2, snd r1 ++ snd r2)
  end.

End Model.

Arguments InterpolatedBounceBackBouzidi {T GridInfo PrecisionPolicy}.
Arguments ExtrapolationOutflow {T GridInfo PrecisionPolicy}.
Arguments Regularized {T GridInfo PrecisionPolicy}.
Arguments Print {T}.
Arguments SaveImage {T}.

(** ** The script's main block *)

(** The keyword arguments the solver is constructed with. *)
Record SimKwargs (T : Type) := {
  kw_lattice : string;
  kw_omega : T;
  kw_nx : Z;
  kw_ny : Z;
  kw_nz : Z;
  kw_precision : string;
  kw_io_rate : Z;
  kw_print_info_rate : Z;
  kw_return_fpost : bool
}.

(** [result_dict], as written to [data.json]. *)
Record Result (T : Type) := {
  resolution_list : list Z;
  CL : list T;
  CD : list T
}.

Definition precision : string := "f64/f64".

Definition diam_list : list Z := [80%Z].

Section Main.
Context {T : Type} `{Scalar T}.
Variables GridInfo PrecisionPolicy Pop : Type.
Variable momentum_exchange_force :
  BC (T:=T) GridInfo PrecisionPolicy -> Pop -> Pop -> option (list (T * T)).

(** [scale_factor = 80 / diam]: true division of two [int]s *)
Definition scale_factor (diam : Z) : option T :=
  if (diam =? 0)%Z then None else Some (of_Z 80 / of_Z diam)%S.

(** [visc = prescribed_vel * diam / Re] with [Re = 100.0] *)
Definition visc (prescribed_vel : T) (diam : Z) : T :=
  let Re := of_Z 100 in
  (prescribed_vel * of_Z diam / Re)%S.

(** [omega = 1.0 / (3. * visc + 0.5)] *)
Definition omega (visc : T) : T :=
  (of_Z 1 / (of_Z 3 * visc + dec 5 10))%S.

(** The body of [for diam in diam_list] up to the construction of the
    solver: the module-level names it binds and the keyword arguments. *)
Definition setup (diam : Z) : option (Globals T * SimKwargs T) :=
  scale_factor <- scale_factor diam ;;
  let prescribed_vel := (dec 3 1000 * scale_factor)%S in
  let lattice := ("LatticeD2Q9(" ++ precision ++ ")")%string in
  let nx := (22 * diam)%Z in
  ny <- s_trunc (dec 41 10 * of_Z diam)%S ;;
  let visc := visc prescribed_vel diam in
  let omega := omega visc in
  io_rate <- s_trunc (of_Z 500 / scale_factor)%S ;;
  print_info_rate <- s_trunc (of_Z 10000 / scale_factor)%S ;;
  let kwargs :=
    {| kw_lattice := lattice; kw_omega := omega;
       kw_nx := nx; kw_ny := ny; kw_nz := 0;
       kw_precision := precision;
       kw_io_rate := io_rate; kw_print_info_rate := print_info_rate;
       kw_return_fpost := true |} in
  t_max <- s_trunc (of_Z 1000000 / scale_factor)%S ;;
  Some ({| diam := diam; prescribed_vel := prescribed_vel; t_max := t_max |},
        kwargs).

(** Modelled from the spec: the constructor of the base class [BGKSim],
    which is not among the sources ([Cylinder.__init__] only passes its
    keyword arguments on to it).  By the spec the grid has the dimensions
    given at construction and is immutable afterwards, the boundary-box index
    sets are derived once from the dimensions (given here), and the boundary
    conditions are held in an ordered list that setup fills.  The attributes
    [CL_max] and [CD_max] are not the constructor's: [output_data] creates
    them. *)
Definition fresh (kwargs : SimKwargs T)
    (gi : GridInfo) (pp : PrecisionPolicy) (bb : BoundingBox)
  : Sim (T:=T) GridInfo PrecisionPolicy :=
  {| nx := kw_nx kwargs; ny := kw_ny kwargs;
     gridInfo := gi; precisionPolicy := pp; boundingBoxIndices := bb;
     BCs := []; CL_max := None; CD_max := None |}.

(** Modelled from the spec: [sim = Cylinder] applied to the keyword
    arguments.  By the spec each boundary condition is constructed once
    during setup from geometry and grid; in the script the only place that
    constructs them is [set_boundary_conditions], so the absent constructor
    is taken to call it on the object above. *)
Definition Cylinder (g : Globals T) (kwargs : SimKwargs T)
    (gi : GridInfo) (pp : PrecisionPolicy) (bb : BoundingBox)
  : option (Sim (T:=T) GridInfo PrecisionPolicy) :=
  set_boundary_conditions g (fresh kwargs gi pp bb).

(** One turn of the sweep.  [calls] is what [sim.run(t_max)] passes to
    [output_data], in order. *)
Definition sweep_step (gi : GridInfo) (pp : PrecisionPolicy)
    (bb : Z -> Z -> BoundingBox)
    (calls : Z -> list (Kwargs (T:=T) Pop)) (diam : Z)
  : option (T * T) :=
  gk <- setup diam ;;
  let g := fst gk in
  let kwargs := snd gk in
  sim <- Cylinder g kwargs gi pp (bb (kw_nx kwargs) (kw_ny kwargs)) ;;
  r <- run_output momentum_exchange_force g sim (calls (t_max g)) ;;
  cl <- CL_max (fst r) ;;
  cd <- CD_max (fst r) ;;
  Some (cl, cd).

Definition main (gi : GridInfo) (pp : PrecisionPolicy)
    (bb : Z -> Z -> BoundingBox)
    (calls : Z -> list (Kwargs (T:=T) Pop))
  : option (Result T) :=
  rs <- mapM (sweep_step gi pp bb calls) diam_list ;;
  Some {| resolution_list := diam_list;
          CL := map fst rs; CD := map snd rs |}.

End Main.


(** * Vocabulary of the statements *)

Unset Implicit Arguments.

(** ** Closed forms of what the methods build *)

Section Vocabulary.
Context {T : Type} `{Scalar T}.
Variables GridInfo PrecisionPolicy : Type.

#[local] Abbreviation Sim := (Sim (T:=T) GridInfo PrecisionPolicy).
#[local] Abbreviation BC := (BC (T:=T) GridInfo PrecisionPolicy).

(** The array of shape [(nx, ny)] holding [f (i, j)] at [[i][j]]. *)
Definition grid {A} (nx ny : Z) (f : Z * Z -> A) : list (list A) :=
  map (fun i => map (fun j => f (i, j)) (Np.range ny)) (Np.range nx).

(** The four conditions, in the order they are appended. *)
Definition cylinder_bc (g : Globals T) (self : Sim) : BC :=
  InterpolatedBounceBackBouzidi
    (Np.transpose
       (filter (fun xy => (node_dist2 g xy <=? radius2 g)%S)
               (coord (nx self) (ny self))))
    (grid (nx self) (ny self)
          (fun xy => (node_dist2 g xy - radius2 g)%S))
    (gridInfo self) (precisionPolicy self).

Definition outflow_bc (self : Sim) : BC :=
  ExtrapolationOutflow (Np.transpose (bb_right (boundingBoxIndices self)))
    (gridInfo self) (precisionPolicy self).

Definition inlet_bc (g : Globals T) (self : Sim)
    (yy_inlet : list Z) (ymin ymax : Z) : BC :=
  Regularized (Np.transpose (bb_left (boundingBoxIndices self)))
    (gridInfo self) (precisionPolicy self) "velocity"
    (Np.set_col0 (Np.zeros2 (length (bb_left (boundingBoxIndices self))))
       (map (fun y => poiseuille_profile (of_Z y) (of_Z ymin)
                        (of_Z (ymax - ymin))
                        (of_Z 3 / of_Z 2 * prescribed_vel g)%S)
            yy_inlet)).

Definition wall_bc (self : Sim) : BC :=
  let wall := bb_top (boundingBoxIndices self)
              ++ bb_bottom (boundingBoxIndices self) in
  Regularized (Np.transpose wall) (gridInfo self) (precisionPolicy self)
    "velocity" (Np.zeros2 (length wall)).

(** [if timestep == 0: self.CL_max = 0.0; self.CD_max = 0.0] *)
Definition reset_at_zero (self : Sim) (timestep : Z) : Sim :=
  if (timestep =? 0)%Z
  then with_max self (Some (of_Z 0)) (Some (of_Z 0))
  else self.

(** The coefficients printed and the steps whose image was saved. *)
Definition printed_cl (ev : list (Event (T:=T))) : list T :=
  flat_map (fun e => match e with Print _ cl _ => [cl] | _ => [] end) ev.

Definition printed_cd (ev : list (Event (T:=T))) : list T :=
  flat_map (fun e => match e with Print _ _ cd => [cd] | _ => [] end) ev.

Definition printed_err (ev : list (Event (T:=T))) : list T :=
  flat_map (fun e => match e with Print err _ _ => [err] | _ => [] end) ev.

End Vocabulary.


(** The rows [1 .. ny-2] that [1:-1] keeps. *)
Definition interior (ny : Z) : list Z :=
  map Z.of_nat (seq 1 (Z.to_nat ny - 2)).

(** The four planes of an [nx] by [ny] grid, for concrete checks. *)
Definition box (nx ny : Z) : BoundingBox :=
  {| bb_left := map (fun j => (0, j)%Z) (Np.range ny);
     bb_right := map (fun j => (nx - 1, j)%Z) (Np.range ny);
     bb_top := map (fun i => (i, ny - 1)%Z) (Np.range nx);
     bb_bottom := map (fun i => (i, 0)%Z) (Np.range nx) |}.

(** A boundary link: a governed node and the lattice direction that crosses
    the wall there. *)
Record Link := { link_node : Z * Z; link_dir : nat }.

(** A population field: a value per node and lattice direction. *)
Definition Populations (T : Type) : Type := Z * Z -> nat -> T.

(** Modelled from the spec: [momentum_exchange_force] of the boundary
    conditions library, which is not among the sources.  For each governed
    boundary link it gives the difference between the pre-streaming
    (post-collision) and the post-streaming population of the link, weighted
    by the link's velocity vector; the script adds the rows up.  The links a
    condition governs and the lattice's velocity vectors are given. *)
Definition spec_momentum_exchange_force {T} `{Scalar T} {GI PP : Type}
    (links : BC (T:=T) GI PP -> list Link) (c : nat -> Z * Z)
    (b : BC (T:=T) GI PP) (f_poststreaming f_postcollision : Populations T)
  : option (list (T * T)) :=
  Some (map (fun l =>
               let d := (f_postcollision (link_node l) (link_dir l)
                         - f_poststreaming (link_node l) (link_dir l))%S in
               ((d * of_Z (fst (c (link_dir l))))%S,
                (d * of_Z (snd (c (link_dir l))))%S))
            (links b)).

(** Modelled from the spec: the keyword arguments the solver, which is not
    among the sources, passes to the hook.  The post-collision populations
    are retained, and passed on, only under the construction flag
    [return_fpost]. *)
Definition hook_kwargs {T} (return_fpost : bool)
    (rho : list (list T)) (u : list (list (T * T))) (timestep : Z)
    (u_prev : list (list (T * T)))
    (f_poststreaming f_postcollision : Populations T)
  : Kwargs (T:=T) (Populations T) :=
  {| rho := rho; u := u; timestep := timestep; u_prev := u_prev;
     f_poststreaming := Some f_poststreaming;
     f_postcollision :=
       if return_fpost then Some f_postcollision else None |}.

(** The nine velocities of a D2Q9 stencil, rest direction first. *)
Definition c_d2q9 (q : nat) : Z * Z :=
  nth q [(0, 0); (1, 0); (0, 1); (-1, 0); (0, -1);
         (1, 1); (-1, 1); (-1, -1); (1, -1)]%Z (0, 0)%Z.

(** ** Over the reals *)

Section RealVocabulary.
#[local] Open Scope R_scope.

(** The sum of [h a] over the entries [a] of [l]. *)
Definition big_sum {A} (l : list A) (h : A -> R) : R :=
  fold_right (fun a acc => h a + acc) 0 l.

(** The Euclidean length of a velocity vector. *)
Definition speed (v : R * R) : R := sqrt (fst v * fst v + snd v * snd v).

(** The L1 norm of the change of a velocity field, as the specification
    words the error: the sum, over all nodes and both
    components, of the absolute difference of the two velocity fields. *)
Definition l1_change (u_prev u : list (list (R * R))) : R :=
  big_sum (combine u_prev u) (fun rows =>
    big_sum (combine (fst rows) (snd rows)) (fun p =>
      Rabs (fst (snd p) - fst (fst p)) + Rabs (snd (snd p) - snd (fst p)))).

(** An attribute that, once set, holds a non-negative number, and one that
    is unset or zero. *)
Definition nonneg_opt (o : option R) : Prop :=
  match o with Some v => 0 <= v | None => True end.

Definition zero_or_unset (o : option R) : Prop := o = None \/ o = Some 0.

(** A small channel for concrete checks: a set-up that moves one unit per
    step around a cylinder of diameter 2, and the solver object on an 8 by 7
    grid before its boundary conditions are installed. *)
Definition g_small : Globals R :=
  {| diam := 2; prescribed_vel := 1; t_max := 10 |}.

Definition sim_small : Sim (T:=R) unit unit :=
  {| nx := 8; ny := 7; gridInfo := tt; precisionPolicy := tt;
     boundingBoxIndices := box 8 7;
     BCs := []; CL_max := None; CD_max := None |}.

(** Two links whose forces add up to a drag of 4 and a lift of -3. *)
Definition forces_small : list (R * R) := [(1, -2); (3, -1)].

(** A library force that returns these two rows whatever it is given. *)
Definition mef_small (b : BC (T:=R) unit unit) (fps fpc : unit)
  : option (list (R * R)) := Some forces_small.

(** The small solver with the cylinder's condition as its only one. *)
Definition sim_ready : Sim (T:=R) unit unit :=
  with_BCs sim_small [cylinder_bc unit unit g_small sim_small].

(** Velocity fields on a 1 by 3 grid: the middle node turns from the x- to
    the y-direction at unchanged speed. *)
Definition u_before : list (list (R * R)) := [[(0, 0); (1, 0); (0, 0)]].

Definition u_after : list (list (R * R)) := [[(0, 0); (0, 1); (0, 0)]].

(** The keyword arguments of a call at step [ts] with these fields. *)
Definition kw_at (ts : Z) : Kwargs (T:=R) unit :=
  {| rho := []; u := u_after; timestep := ts; u_prev := u_before;
     f_poststreaming := Some tt; f_postcollision := Some tt |}.

(** The fields of the short run as tabulated functions. *)
Definition f_before (xy : Z * Z) : R * R :=
  if (snd xy =? 1)%Z then (1, 0) else (0, 0).

Definition f_after (xy : Z * Z) : R * R :=
  if (snd xy =? 1)%Z then (0, 1) else (0, 0).

(** What the set-up of [diam = 80] binds, over the reals. *)
Definition g80 : Globals R :=
  {| diam := 80; prescribed_vel := 3 / 1000 * (80 / 80); t_max := 1000000 |}.

Definition kwargs80 : SimKwargs R :=
  {| kw_lattice := "LatticeD2Q9(f64/f64)";
     kw_omega := 1 / (3 * (3 / 1000 * (80 / 80) * 80 / 100) + 5 / 10);
     kw_nx := 1760; kw_ny := 328; kw_nz := 0;
     kw_precision := "f64/f64";
     kw_io_rate := 500; kw_print_info_rate := 10000;
     kw_return_fpost := true |}.

(** A body with two links, along directions 1 and 8. *)
Definition links_two (b : BC (T:=R) unit unit) : list Link :=
  [{| link_node := (3, 4)%Z; link_dir := 1 |};
   {| link_node := (4, 5)%Z; link_dir := 8 |}].

(** Before streaming every population is 5, after streaming it is 2. *)
Definition f_five : Populations R := fun _ _ => 5.

Definition f_two : Populations R := fun _ _ => 2.



End RealVocabulary.

(** ** In machine arithmetic *)

(** The small channel, the two force rows and the short run's fields as
    floats. *)
Definition gf_small : Globals float :=
  {| diam := 2; prescribed_vel := 1%float; t_max := 10 |}.

Definition simf_small : Sim (T:=float) unit unit :=
  {| nx := 8; ny := 7; gridInfo := tt; precisionPolicy := tt;
     boundingBoxIndices := box 8 7;
     BCs := []; CL_max := None; CD_max := None |}.

Definition meff_small (b : BC (T:=float) unit unit) (fps fpc : unit)
  : option (list (float * float)) :=
  Some [(1, -2); (3, -1)]%float.

Definition kwf_at (ts : Z) : Kwargs (T:=float) unit :=
  {| rho := [];
     u := [[(0, 0); (0, 1); (0, 0)]]%float;
     timestep := ts;
     u_prev := [[(0, 0); (1, 0); (0, 0)]]%float;
     f_poststreaming := Some tt; f_postcollision := Some tt |}.

(** ** Further vocabulary *)

(** The steps whose image a run saved. *)
Definition saved_steps {T} (ev : list (Event (T:=T))) : list Z :=
  flat_map (fun e => match e with SaveImage ts _ => [ts] | _ => [] end) ev.

(** The small float channel with the cylinder registered, and a momentum
    exchange whose lift has diverged. *)
Definition simf_ready : Sim (T:=float) unit unit :=
  with_BCs simf_small [cylinder_bc unit unit gf_small simf_small].

Definition mef_nan (b : BC (T:=float) unit unit) (fps fpc : unit)
  : option (list (float * float)) :=
  Some [(1, nan); (3, -1)]%float.

(** One turn of the sweep with the construction of the solver, which the
    sources do not contain, left as a parameter: the body of
    [for diam in diam_list] from [scale_factor = 80 / diam] to the two
    [append]s. *)
Definition sweep_step_from {T} `{Scalar T} {GI PP Pop : Type}
    (mef : BC (T:=T) GI PP -> Pop -> Pop -> option (list (T * T)))
    (construct : Globals T -> SimKwargs T -> option (Sim (T:=T) GI PP))
    (calls : Z -> list (Kwargs (T:=T) Pop)) (diam : Z)
  : option (T * T) :=
  gk <- setup diam ;;
  let g := fst gk in
  let kwargs := snd gk in
  sim <- construct g kwargs ;;
  r <- run_output mef g sim (calls (t_max g)) ;;
  cl <- CL_max (fst r) ;;
  cd <- CD_max (fst r) ;;
  Some (cl, cd).


(** * Properties *)

(** ** The documented scenario in machine arithmetic *)

Example setup_80_float :
  setup (T:=float) 80 =
  Some ({| diam := 80; prescribed_vel := 0x1.89374bc6a7efap-9%float; t_max := 1000000 |},
        {| kw_lattice := "LatticeD2Q9(f64/f64)"; kw_omega := 0x1.f8bb5b4169cabp+0%float;
           kw_nx := 1760; kw_ny := 328; kw_nz := 0;
           kw_precision := "f64/f64";
           kw_io_rate := 500; kw_print_info_rate := 10000;
           kw_return_fpost := true |}).
Proof. vm_compute. reflexivity. Qed.

(** ** Arrays *)

Module NpFacts.

Lemma in_range (n k : Z) : In k (Np.range n) <-> (0 <= k < n)%Z.
Proof.
  unfold Np.range. rewrite in_map_iff. split.
  - intros (m & <- & Hm). apply in_seq in Hm. lia.
  - intros Hk. exists (Z.to_nat k). split; [lia|]. apply in_seq. lia.
Qed.

Lemma length_range (n : Z) : length (Np.range n) = Z.to_nat n.
Proof. unfold Np.range. now rewrite length_map, length_seq. Qed.

Lemma nth_error_range (n k : Z) :
  (0 <= k < n)%Z -> nth_error (Np.range n) (Z.to_nat k) = Some k.
Proof.
  intros Hk. unfold Np.range.
  rewrite nth_error_map, nth_error_seq.
  destruct (Nat.ltb_spec (Z.to_nat k) (Z.to_nat n)) as [_|Hge]; [|lia].
  cbn. f_equal. lia.
Qed.

Lemma combine_fst_snd {A B} (l : list (A * B)) :
  combine (map fst l) (map snd l) = l.
Proof. induction l as [|[a b] l IH]; cbn; [reflexivity|now rewrite IH]. Qed.

Lemma transpose_combine (l : list (Z * Z)) :
  combine (fst (Np.transpose l)) (snd (Np.transpose l)) = l.
Proof. apply combine_fst_snd. Qed.

(** A non-negative index reads the list at that position. *)
Lemma get_nonneg {A} (l : list A) (i : Z) :
  (0 <= i)%Z -> Np.get l i = nth_error l (Z.to_nat i).
Proof.
  intros Hi. unfold Np.get.
  now destruct (Z.leb_spec 0 i); [|lia].
Qed.

(** Reshaping the concatenation of [rows] rows of [cols] entries gives the
    rows back. *)
Lemma chunks_concat {A} (cols : nat) (rows : list (list A)) :
  Forall (fun r => length r = cols) rows ->
  Np.chunks (length rows) cols (concat rows) = rows.
Proof.
  induction 1 as [|r rows Hr _ IH]; cbn; [reflexivity|].
  subst cols.
  rewrite firstn_app, skipn_app, Nat.sub_diag, firstn_all, skipn_all.
  cbn. now rewrite app_nil_r, IH.
Qed.

Lemma length_concat_const {A} (cols : nat) (rows : list (list A)) :
  Forall (fun r => length r = cols) rows ->
  length (concat rows) = (length rows * cols)%nat.
Proof.
  induction 1 as [|r rows Hr _ IH]; cbn; [reflexivity|].
  rewrite length_app, IH, Hr. lia.
Qed.

End NpFacts.

(** ** The boundary-condition list in closed form *)

Section SetupFacts.
Context {T : Type} `{Scalar T}.
Variables GridInfo PrecisionPolicy : Type.

#[local] Abbreviation Sim := (Sim (T:=T) GridInfo PrecisionPolicy).
#[local] Abbreviation BC := (BC (T:=T) GridInfo PrecisionPolicy).
#[local] Abbreviation cylinder_bc := (cylinder_bc GridInfo PrecisionPolicy).
#[local] Abbreviation outflow_bc := (outflow_bc GridInfo PrecisionPolicy).
#[local] Abbreviation inlet_bc := (inlet_bc GridInfo PrecisionPolicy).
#[local] Abbreviation wall_bc := (wall_bc GridInfo PrecisionPolicy).

Lemma in_coord (nx ny i j : Z) :
  In (i, j) (coord nx ny) <-> (0 <= i < nx)%Z /\ (0 <= j < ny)%Z.
Proof.
  unfold coord. rewrite in_flat_map. split.
  - intros (i' & Hi & Hj). apply in_map_iff in Hj as (j' & Heq & Hj).
    inversion Heq; subst. now rewrite <- !NpFacts.in_range.
  - intros [Hi Hj]. exists i. split; [now apply NpFacts.in_range|].
    apply in_map_iff. exists j. split; [reflexivity|].
    now apply NpFacts.in_range.
Qed.

Lemma map_coord {A} (f : Z * Z -> A) (nx ny : Z) :
  map f (coord nx ny) = concat (grid nx ny f).
Proof.
  unfold coord, grid. rewrite flat_map_concat_map, concat_map, map_map.
  f_equal. apply map_ext. intros i. now rewrite map_map.
Qed.

Lemma grid_rows {A} (f : Z * Z -> A) (nx ny : Z) :
  Forall (fun r => length r = Z.to_nat ny) (grid nx ny f).
Proof.
  unfold grid. apply Forall_map, Forall_forall. intros i _.
  now rewrite length_map, NpFacts.length_range.
Qed.

Lemma length_grid {A} (f : Z * Z -> A) (nx ny : Z) :
  length (grid nx ny f) = Z.to_nat nx.
Proof. unfold grid. now rewrite length_map, NpFacts.length_range. Qed.

Lemma length_coord (nx ny : Z) :
  length (coord nx ny) = (Z.to_nat nx * Z.to_nat ny)%nat.
Proof.
  rewrite <- (map_id (coord nx ny)), map_coord.
  rewrite (NpFacts.length_concat_const _ _ (grid_rows _ nx ny)).
  now rewrite length_grid.
Qed.

(** [np.reshape] of an array computed per coordinate is the grid. *)
Lemma reshape_coord {A} (f : Z * Z -> A) (nx ny : Z) :
  (0 <= nx)%Z -> (0 <= ny)%Z ->
  Np.reshape (map f (coord nx ny)) nx ny = Some (grid nx ny f).
Proof.
  intros Hx Hy. unfold Np.reshape.
  rewrite length_map, length_coord.
  destruct (Z.leb_spec 0 nx); [|lia]. destruct (Z.leb_spec 0 ny); [|lia].
  replace (Z.of_nat (Z.to_nat nx * Z.to_nat ny)) with (nx * ny)%Z by lia.
  rewrite Z.eqb_refl. cbn. f_equal.
  rewrite map_coord, <- (length_grid f nx ny).
  apply NpFacts.chunks_concat, grid_rows.
Qed.

Lemma get2_grid {A} (f : Z * Z -> A) (nx ny i j : Z) :
  (0 <= i < nx)%Z -> (0 <= j < ny)%Z ->
  Np.get2 (grid nx ny f) i j = Some (f (i, j)).
Proof.
  intros Hi Hj. unfold Np.get2, grid.
  rewrite NpFacts.get_nonneg by lia.
  rewrite nth_error_map, NpFacts.nth_error_range by lia. cbn.
  rewrite NpFacts.get_nonneg by lia.
  now rewrite nth_error_map, NpFacts.nth_error_range by lia.
Qed.

(** Selecting by a mask computed per element is filtering. *)
Lemma select_map {A} (p : A -> bool) (l : list A) :
  select l (map p l) = filter p l.
Proof.
  unfold select. induction l as [|a l IH]; cbn; [reflexivity|].
  destruct (p a); cbn; now rewrite IH.
Qed.

Lemma dist2_coord (g : Globals T) (nx ny : Z) :
  dist2 g (map fst (coord nx ny)) (map snd (coord nx ny))
  = map (node_dist2 g) (coord nx ny).
Proof. unfold dist2. now rewrite NpFacts.combine_fst_snd. Qed.

(** On a grid with at least one node the method is this computation:
    the only steps that can fail are the lookups of the inlet rows and
    the extrema of an empty inlet. *)
Lemma set_boundary_conditions_eq (g : Globals T) (self : Sim) :
  (0 < nx self)%Z -> (0 < ny self)%Z ->
  set_boundary_conditions g self =
  (yy_inlet <- take2 (grid (nx self) (ny self) snd)
                     (Np.transpose (bb_left (boundingBoxIndices self))) ;;
   ymin <- Np.min yy_inlet ;;
   ymax <- Np.max yy_inlet ;;
   Some (with_BCs self
           (BCs self ++ [cylinder_bc g self; outflow_bc self;
                         inlet_bc g self yy_inlet ymin ymax;
                         wall_bc self]))).
Proof.
  intros Hx Hy. unfold set_boundary_conditions.
  rewrite length_coord.
  destruct (Nat.eqb_spec (Z.to_nat (nx self) * Z.to_nat (ny self)) 0)
    as [H0|_]; [nia|].
  rewrite dist2_coord, !map_map, select_map.
  rewrite !reshape_coord by lia. cbn [bind].
  destruct (take2 _ _) as [yy_inlet|]; [cbn [bind]|reflexivity].
  destruct (Np.min yy_inlet) as [ymin|]; [cbn [bind]|reflexivity].
  destruct (Np.max yy_inlet) as [ymax|]; [cbn [bind]|reflexivity].
  unfold cylinder_bc, outflow_bc, inlet_bc, wall_bc.
  now rewrite <- !app_assoc.
Qed.

(** The method fails on a grid without nodes. *)
Lemma set_boundary_conditions_empty (g : Globals T) (self : Sim) :
  (nx self <= 0)%Z \/ (ny self <= 0)%Z ->
  set_boundary_conditions g self = None.
Proof.
  intros Hxy. unfold set_boundary_conditions. rewrite length_coord.
  destruct (Nat.eqb_spec (Z.to_nat (nx self) * Z.to_nat (ny self)) 0)
    as [_|Hn]; [reflexivity|nia].
Qed.

Lemma set_boundary_conditions_inv (g : Globals T) (self self' : Sim) :
  set_boundary_conditions g self = Some self' ->
  (0 < nx self)%Z /\ (0 < ny self)%Z /\
  exists yy_inlet ymin ymax,
    take2 (grid (nx self) (ny self) snd)
          (Np.transpose (bb_left (boundingBoxIndices self)))
      = Some yy_inlet /\
    Np.min yy_inlet = Some ymin /\ Np.max yy_inlet = Some ymax /\
    self' = with_BCs self
              (BCs self ++ [cylinder_bc g self; outflow_bc self;
                            inlet_bc g self yy_inlet ymin ymax;
                            wall_bc self]).
Proof.
  intros Hs.
  assert (Hx : (0 < nx self)%Z).
  { destruct (Z.ltb_spec 0 (nx self)); [assumption|].
    rewrite set_boundary_conditions_empty in Hs by lia. discriminate. }
  assert (Hy : (0 < ny self)%Z).
  { destruct (Z.ltb_spec 0 (ny self)); [assumption|].
    rewrite set_boundary_conditions_empty in Hs by lia. discriminate. }
  rewrite set_boundary_conditions_eq in Hs by assumption.
  destruct (take2 _ _) as [yy_inlet|] eqn:Ht; [cbn [bind] in Hs|discriminate].
  destruct (Np.min yy_inlet) as [ymin|] eqn:Hmin;
    [cbn [bind] in Hs|discriminate].
  destruct (Np.max yy_inlet) as [ymax|] eqn:Hmax;
    [cbn [bind] in Hs|discriminate].
  inversion Hs. repeat split; try assumption.
  now exists yy_inlet, ymin, ymax.
Qed.

(** On a solver without conditions the cylinder's condition comes first;
    the retained maxima are not touched. *)
Lemma set_boundary_conditions_head (g : Globals T) (self self' : Sim) :
  BCs self = [] ->
  set_boundary_conditions g self = Some self' ->
  nth_error (BCs self') 0 = Some (cylinder_bc g self) /\
  CL_max self' = CL_max self /\ CD_max self' = CD_max self.
Proof.
  intros Hb Hs.
  apply set_boundary_conditions_inv in Hs
    as (_ & _ & yy & mn & mx & _ & _ & _ & ->).
  cbn [BCs CL_max CD_max with_BCs]. rewrite Hb. now repeat split.
Qed.

End SetupFacts.

(** ** The inlet rows *)

Section InletFacts.
Context {T : Type} `{Scalar T}.

Lemma mapM_length {A B} (f : A -> option B) (l : list A) (r : list B) :
  mapM f l = Some r -> length r = length l.
Proof.
  revert r. induction l as [|a l IH]; cbn; intros r Hr.
  - now inversion Hr.
  - destruct (f a) as [b|]; [cbn in Hr|discriminate].
    destruct (mapM f l) as [bs|]; [cbn in Hr|discriminate].
    inversion Hr. cbn. now rewrite (IH bs).
Qed.

Lemma mapM_ext_in {A B} (f : A -> option B) (h : A -> B) (l : list A) :
  (forall a, In a l -> f a = Some (h a)) -> mapM f l = Some (map h l).
Proof.
  induction l as [|a l IH]; cbn; intros Hf; [reflexivity|].
  rewrite (Hf a) by now left. cbn.
  rewrite IH by (intros; apply Hf; now right). reflexivity.
Qed.

(** Rows read at nodes inside the grid are the grid's values there. *)
Lemma take2_grid {A} (f : Z * Z -> A) (nx ny : Z) (idx : list (Z * Z)) :
  Forall (fun xy => (0 <= fst xy < nx)%Z /\ (0 <= snd xy < ny)%Z) idx ->
  take2 (grid nx ny f) (Np.transpose idx) = Some (map f idx).
Proof.
  intros Hin. unfold take2. rewrite NpFacts.transpose_combine.
  apply mapM_ext_in. intros [i j] Hij.
  rewrite Forall_forall in Hin. destruct (Hin _ Hij) as [Hi Hj].
  now apply get2_grid.
Qed.

Lemma take2_length {A} (a : list (list A)) (idx : list (Z * Z)) (r : list A) :
  take2 a (Np.transpose idx) = Some r -> length r = length idx.
Proof.
  unfold take2. rewrite NpFacts.transpose_combine. apply mapM_length.
Qed.

(** Writing a column into a zero array of its length. *)
Lemma set_col0_zeros (col : list T) :
  Np.set_col0 (Np.zeros2 (length col)) col = map (fun c => (c, of_Z 0)) col.
Proof.
  unfold Np.set_col0, Np.zeros2.
  induction col as [|c col IH]; cbn; [reflexivity|]. now rewrite IH.
Qed.

Lemma min_cons (x : Z) (l : list Z) : exists m, Np.min (x :: l) = Some m.
Proof. now eexists. Qed.

Lemma max_cons (x : Z) (l : list Z) : exists m, Np.max (x :: l) = Some m.
Proof. now eexists. Qed.

End InletFacts.

(** ** Real arithmetic *)

Open Scope R_scope.

Lemma Rltb_true (a b : R) : Rltb a b = true <-> a < b.
Proof. unfold Rltb. destruct (Rlt_dec a b); split; intros; auto; discriminate. Qed.

Lemma Rltb_false (a b : R) : Rltb a b = false <-> b <= a.
Proof.
  unfold Rltb. destruct (Rlt_dec a b); split; intros; auto; try discriminate; lra.
Qed.

Lemma Rleb_true (a b : R) : Rleb a b = true <-> a <= b.
Proof. unfold Rleb. destruct (Rle_dec a b); split; intros; auto; discriminate. Qed.

Lemma py_max_R (a b : R) : py_max a b = Rmax a b.
Proof.
  unfold py_max. cbn. unfold Rltb, Rmax.
  destruct (Rlt_dec a b), (Rle_dec a b); try reflexivity; lra.
Qed.

Lemma Int_part_of_Z (z : Z) : Int_part (IZR z) = z.
Proof. symmetry. apply Int_part_spec. lra. Qed.

Lemma Rtrunc_IZR (z : Z) : Rtrunc (IZR z) = Some z.
Proof.
  unfold Rtrunc. f_equal. destruct (Rle_dec 0 (IZR z)).
  - apply Int_part_of_Z.
  - rewrite <- opp_IZR, Int_part_of_Z. lia.
Qed.

(** [int] of a real that is an integer. *)
Lemma Rtrunc_eq (r : R) (z : Z) : r = IZR z -> Rtrunc r = Some z.
Proof. intros ->. apply Rtrunc_IZR. Qed.

Lemma poiseuille_profile_R (x x0 d umax : R) :
  poiseuille_profile x x0 d umax
  = Rmax 0 (4 * umax / (d * d) * ((x - x0) * d - (x - x0) * (x - x0))).
Proof. reflexivity. Qed.

(** The parabola under the clamp never exceeds [umax]. *)
Lemma parabola_le (d umax t : R) :
  d <> 0 -> 0 <= umax ->
  4 * umax / (d * d) * (t * d - t * t) <= umax.
Proof.
  intros Hd Hu.
  assert (Hdd : 0 < d * d) by nra.
  assert (Hk : 0 <= 4 * umax / (d * d)).
  { apply Rmult_le_pos; [lra|]. left. now apply Rinv_0_lt_compat. }
  replace umax with (4 * umax / (d * d) * (d * d / 4)) at 2 by (field; lra).
  apply Rmult_le_compat_l; [assumption|].
  pose proof (Rle_0_sqr (t - d / 2)) as Hs. unfold Rsqr in Hs. lra.
Qed.

(** ** When the set-up returns *)

(** The method returns whenever the grid has a node and the inlet is a
    non-empty set of nodes of the grid. *)
Lemma set_boundary_conditions_total {T} `{Scalar T} (GI PP : Type)
    (g : Globals T) (self : Sim (T:=T) GI PP) :
  (0 < nx self)%Z -> (0 < ny self)%Z ->
  bb_left (boundingBoxIndices self) <> [] ->
  Forall (fun xy => (0 <= fst xy < nx self)%Z /\ (0 <= snd xy < ny self)%Z)
         (bb_left (boundingBoxIndices self)) ->
  exists self', set_boundary_conditions g self = Some self'.
Proof.
  intros Hx Hy Hne Hin.
  rewrite set_boundary_conditions_eq by assumption.
  rewrite (take2_grid snd _ _ _ Hin). cbn [bind].
  destruct (bb_left (boundingBoxIndices self)) as [|xy l]; [contradiction|].
  cbn. eexists. reflexivity.
Qed.

Lemma sim_small_setup :
  exists self', set_boundary_conditions g_small sim_small = Some self'.
Proof.
  apply set_boundary_conditions_total; cbn; try lia; try discriminate.
  repeat constructor; cbn; lia.
Qed.

(** ** The inlet profile (C6) *)

Example poiseuille_float_midline :
  (poiseuille_profile (T:=float) 5 0 10 0x1.8p+0 = 0x1.8p+0)%float.
Proof. vm_compute. reflexivity. Qed.

Example poiseuille_float_walls :
  (poiseuille_profile (T:=float) 0 0 10 0x1.8p+0 = 0)%float /\
  (poiseuille_profile (T:=float) 10 0 10 0x1.8p+0 = 0)%float /\
  (poiseuille_profile (T:=float) 12 0 10 0x1.8p+0 = 0)%float.
Proof. vm_compute. repeat split; reflexivity. Qed.

(** C6, as the code has it.  Over the reals and for a channel of non-zero
    width the profile is non-negative, is zero at [y0] and at [y0 + d] and
    takes equal values at equal distances from the midline [y0 + d/2]; if
    moreover [umax] is not negative, it equals [umax] at the midline and
    exceeds it nowhere.  The inlet condition that [set_boundary_conditions]
    installs (third in the list) prescribes, at each inlet node, this
    profile of the node's row with [umax = 1.5 * prescribed_vel] as
    x-component and zero as y-component. *)
Theorem poiseuille_profile_inlet :
  (forall y y0 d umax, d <> 0 -> 0 <= poiseuille_profile y y0 d umax) /\
  (forall y0 d umax, d <> 0 ->
     poiseuille_profile y0 y0 d umax = 0 /\
     poiseuille_profile (y0 + d) y0 d umax = 0) /\
  (forall y0 d umax t, d <> 0 ->
     poiseuille_profile (y0 + d / 2 + t) y0 d umax
     = poiseuille_profile (y0 + d / 2 - t) y0 d umax) /\
  (forall y0 d umax, d <> 0 -> 0 <= umax ->
     poiseuille_profile (y0 + d / 2) y0 d umax = umax /\
     forall y, poiseuille_profile y y0 d umax <= umax) /\
  (forall (GI PP : Type) (g : Globals R) (self self' : Sim (T:=R) GI PP),
     set_boundary_conditions g self = Some self' ->
     exists yy_inlet ymin ymax,
       take2 (grid (nx self) (ny self) snd)
             (Np.transpose (bb_left (boundingBoxIndices self)))
         = Some yy_inlet /\
       Np.min yy_inlet = Some ymin /\ Np.max yy_inlet = Some ymax /\
       nth_error (BCs self') (length (BCs self) + 2) =
       Some (Regularized (Np.transpose (bb_left (boundingBoxIndices self)))
               (gridInfo self) (precisionPolicy self) "velocity"
               (map (fun y => (poiseuille_profile (IZR y) (IZR ymin)
                                 (IZR (ymax - ymin)) (1.5 * prescribed_vel g),
                               0))
                    yy_inlet))).
Proof.
  split; [|split; [|split; [|split]]].
  - intros y y0 d umax _. rewrite poiseuille_profile_R. apply Rmax_l.
  - intros y0 d umax _. rewrite !poiseuille_profile_R. split.
    + replace ((y0 - y0) * d - (y0 - y0) * (y0 - y0)) with 0 by ring.
      rewrite Rmult_0_r. apply Rmax_left. lra.
    + replace ((y0 + d - y0) * d - (y0 + d - y0) * (y0 + d - y0))
        with 0 by ring.
      rewrite Rmult_0_r. apply Rmax_left. lra.
  - intros y0 d umax t _. rewrite !poiseuille_profile_R. do 2 f_equal. field.
  - intros y0 d umax Hd Hu. split.
    + rewrite poiseuille_profile_R.
      replace (4 * umax / (d * d) *
               ((y0 + d / 2 - y0) * d - (y0 + d / 2 - y0) * (y0 + d / 2 - y0)))
        with umax by (field; assumption).
      now apply Rmax_right.
    + intros y. rewrite poiseuille_profile_R.
      apply Rmax_lub; [assumption|]. now apply parabola_le.
  - intros GI PP g self self' Hs.
    apply set_boundary_conditions_inv in Hs
      as (_ & _ & yy_inlet & ymin & ymax & Ht & Hmin & Hmax & ->).
    exists yy_inlet, ymin, ymax. repeat (split; [assumption|]).
    cbn [BCs with_BCs].
    rewrite nth_error_app2 by lia.
    replace (length (BCs self) + 2 - length (BCs self))%nat with 2%nat by lia.
    cbn [nth_error]. unfold inlet_bc. do 2 f_equal.
    rewrite <- (take2_length _ _ _ Ht), <- (length_map
      (fun y => poiseuille_profile (of_Z y) (of_Z ymin) (of_Z (ymax - ymin))
                  (of_Z 3 / of_Z 2 * prescribed_vel g)%S) yy_inlet).
    rewrite set_col0_zeros, map_map. apply map_ext. intros y. cbn.
    do 2 f_equal. lra.
Qed.

Lemma poiseuille_profile_inlet_witness :
  exists self',
    set_boundary_conditions g_small sim_small = Some self' /\
    0 <= poiseuille_profile 3 0 6 1.5 /\
    poiseuille_profile 3 0 6 1.5 = 1.5 /\
    nth_error (BCs self') 2 =
    Some (Regularized (Np.transpose (bb_left (box 8 7))) tt tt "velocity"
            (map (fun y => (poiseuille_profile (IZR y) 0 6 1.5, 0))
                 (Np.range 7))).
Proof.
  destruct sim_small_setup as [self' Hs]. exists self'.
  destruct poiseuille_profile_inlet as (Hpos & _ & _ & Hmax & Hin).
  destruct (Hin unit unit g_small sim_small self' Hs)
    as (yy & ymin & ymax & Ht & Hmin & Hmx & Hn).
  split; [exact Hs|]. split; [apply Hpos; lra|]. split.
  - replace 3 with (0 + 6 / 2) by lra. apply Hmax; lra.
  - vm_compute in Ht. injection Ht as <-.
    cbn in Hmin, Hmx. injection Hmin as <-. injection Hmx as <-.
    cbn [BCs sim_small length Nat.add] in Hn. rewrite Hn.
    do 2 f_equal. apply map_ext. intros y. cbn. do 2 f_equal. lra.
Defined.

(** C6 as the specification states it fails.  With a negative peak the clamp
    turns the profile over: for [umax = -1] between walls at 0 and 1 the
    midline value is 0, not [umax], and the largest values lie outside the
    walls (8 at [y = 2]).  And in machine arithmetic a channel of zero width
    gives nan at the wall itself, which is neither zero nor non-negative. *)
Lemma poiseuille_profile_not_for_every_input :
  ~ (forall y0 d umax : R,
       poiseuille_profile (y0 + d / 2) y0 d umax = umax) /\
  ~ (forall y y0 d umax : R,
       poiseuille_profile y y0 d umax
       <= poiseuille_profile (y0 + d / 2) y0 d umax) /\
  ~ (forall y y0 d umax : float,
       PrimFloat.leb 0 (poiseuille_profile y y0 d umax) = true) /\
  ~ (forall y0 d umax : float,
       PrimFloat.eqb (poiseuille_profile y0 y0 d umax) 0 = true).
Proof.
  assert (Hmid : poiseuille_profile (0 + 1 / 2) 0 1 (-1) = 0).
  { rewrite poiseuille_profile_R. apply Rmax_left. lra. }
  assert (Hout : poiseuille_profile 2 0 1 (-1) = 8).
  { rewrite poiseuille_profile_R. rewrite Rmax_right; lra. }
  split; [|split; [|split]].
  - intros Hall. specialize (Hall 0 1 (-1)). rewrite Hmid in Hall. lra.
  - intros Hall. specialize (Hall 2 0 1 (-1)).
    rewrite Hmid, Hout in Hall. lra.
  - intros Hall. specialize (Hall 3 3 0 0x1.8p+0)%float.
    vm_compute in Hall. discriminate.
  - intros Hall. specialize (Hall 3 0 0x1.8p+0)%float.
    vm_compute in Hall. discriminate.
Qed.

(** ** The cylinder and its level set (C9) *)

Lemma node_dist2_R (g : Globals R) (i j : Z) :
  node_dist2 g (i, j)
  = (IZR i - 2 * IZR (diam g)) ^ 2 + (IZR j - 2 * IZR (diam g)) ^ 2.
Proof. unfold node_dist2, centre, sq. cbn. ring. Qed.

Lemma radius2_R (g : Globals R) : radius2 g = (IZR (diam g) / 2) ^ 2.
Proof. unfold radius2, sq. cbn. ring. Qed.

(** C9.  For every node [(i, j)] of the grid: the node is among the indices
    handed to the cylinder's condition exactly when
    [(i - 2 diam)^2 + (j - 2 diam)^2 <= (diam/2)^2], and exactly then the
    implicit distance array handed over with them is [<= 0] at [[i][j]]. *)
Theorem cylinder_indices_level_set (GI PP : Type) (g : Globals R)
    (self self' : Sim (T:=R) GI PP) (i j : Z) :
  set_boundary_conditions g self = Some self' ->
  (0 <= i < nx self)%Z -> (0 <= j < ny self)%Z ->
  exists idx dist gi pp v,
    nth_error (BCs self') (length (BCs self))
      = Some (InterpolatedBounceBackBouzidi idx dist gi pp) /\
    Np.get2 dist i j = Some v /\
    (governs (InterpolatedBounceBackBouzidi idx dist gi pp) i j <->
     (IZR i - 2 * IZR (diam g)) ^ 2 + (IZR j - 2 * IZR (diam g)) ^ 2
     <= (IZR (diam g) / 2) ^ 2) /\
    ((IZR i - 2 * IZR (diam g)) ^ 2 + (IZR j - 2 * IZR (diam g)) ^ 2
     <= (IZR (diam g) / 2) ^ 2 <-> v <= 0).
Proof.
  intros Hs Hi Hj.
  apply set_boundary_conditions_inv in Hs as (_ & _ & yy & mn & mx & _ & _ & _ & ->).
  do 4 eexists. exists (node_dist2 g (i, j) - radius2 g).
  split; [|split; [|split]].
  - cbn [BCs with_BCs]. rewrite nth_error_app2 by lia.
    rewrite Nat.sub_diag. reflexivity.
  - change (s_sub ?a ?b) with (a - b). now apply get2_grid.
  - unfold governs. cbn [bc_indices]. rewrite NpFacts.transpose_combine.
    rewrite filter_In, in_coord. cbn [s_leb R_scalar].
    rewrite Rleb_true, node_dist2_R, radius2_R. tauto.
  - rewrite node_dist2_R, radius2_R. lra.
Qed.

Lemma cylinder_indices_level_set_witness :
  exists self' b,
    set_boundary_conditions g_small sim_small = Some self' /\
    nth_error (BCs self') 0 = Some b /\
    governs b 4 4 /\ ~ governs b 4 6.
Proof.
  destruct sim_small_setup as [self' Hs]. exists self'.
  assert (H8 : (0 <= 4 < nx sim_small)%Z) by (cbn; lia).
  assert (H7 : (0 <= 4 < ny sim_small)%Z) by (cbn; lia).
  assert (H6 : (0 <= 6 < ny sim_small)%Z) by (cbn; lia).
  destruct (cylinder_indices_level_set unit unit g_small sim_small self' 4 4
              Hs H8 H7) as (idx & dist & gi & pp & v & Hn & _ & Hg & _).
  destruct (cylinder_indices_level_set unit unit g_small sim_small self' 4 6
              Hs H8 H6) as (idx' & dist' & gi' & pp' & v' & Hn' & _ & Hg' & _).
  exists (InterpolatedBounceBackBouzidi idx dist gi pp).
  split; [exact Hs|]. split; [exact Hn|]. split.
  - apply Hg. cbn. lra.
  - rewrite Hn in Hn'. injection Hn' as <- <- <- <-.
    intros Hgov. apply Hg' in Hgov. cbn in Hgov. lra.
Defined.

(** ** The channel walls (C8) *)

(** C8.  The last condition [set_boundary_conditions] appends is one
    [Regularized] condition of type ['velocity']; a node is among its indices
    exactly when it is in the ['top'] or in the ['bottom'] index set, and the
    velocity prescribed at each of its indices is zero in both components. *)
Theorem wall_bc_zero_velocity {T} `{Scalar T} (GI PP : Type) (g : Globals T)
    (self self' : Sim (T:=T) GI PP) :
  set_boundary_conditions g self = Some self' ->
  exists idx vel,
    length (BCs self') = (length (BCs self) + 4)%nat /\
    nth_error (BCs self') (length (BCs self) + 3)
      = Some (Regularized idx (gridInfo self) (precisionPolicy self)
                "velocity" vel) /\
    (forall i j,
       governs (Regularized idx (gridInfo self) (precisionPolicy self)
                  "velocity" vel) i j <->
       In (i, j) (bb_top (boundingBoxIndices self)) \/
       In (i, j) (bb_bottom (boundingBoxIndices self))) /\
    length vel = length (combine (fst idx) (snd idx)) /\
    Forall (fun v => v = (of_Z 0, of_Z 0)) vel.
Proof.
  intros Hs.
  apply set_boundary_conditions_inv in Hs as (_ & _ & yy & mn & mx & _ & _ & _ & ->).
  do 2 eexists. split; [|split; [|split; [|split]]].
  - cbn [BCs with_BCs]. rewrite length_app. reflexivity.
  - cbn [BCs with_BCs]. rewrite nth_error_app2 by lia.
    replace (length (BCs self) + 3 - length (BCs self))%nat with 3%nat by lia.
    reflexivity.
  - intros i j. unfold governs. cbn [bc_indices].
    rewrite NpFacts.transpose_combine. apply in_app_iff.
  - rewrite NpFacts.transpose_combine. unfold Np.zeros2. apply repeat_length.
  - unfold Np.zeros2. apply Forall_forall. intros v Hv.
    now apply repeat_spec in Hv.
Qed.

Lemma wall_bc_zero_velocity_witness :
  exists self' idx vel,
    set_boundary_conditions g_small sim_small = Some self' /\
    nth_error (BCs self') 3 = Some (Regularized idx tt tt "velocity" vel) /\
    governs (Regularized idx tt tt "velocity" vel) 5 6 /\
    governs (Regularized idx tt tt "velocity" vel) 5 0 /\
    ~ governs (Regularized idx tt tt "velocity" vel) 5 3 /\
    length vel = 16%nat /\ Forall (fun v => v = (0, 0)) vel.
Proof.
  destruct sim_small_setup as [self' Hs]. exists self'.
  destruct (wall_bc_zero_velocity unit unit g_small sim_small self' Hs)
    as (idx & vel & _ & Hn & Hg & Hl & Hz).
  exists idx, vel. split; [exact Hs|]. split; [exact Hn|].
  split; [|split; [|split; [|split]]].
  - apply Hg. left. cbn. do 5 right. left. reflexivity.
  - apply Hg. right. cbn. do 5 right. left. reflexivity.
  - intros Hgov. apply Hg in Hgov. cbn in Hgov.
    repeat destruct Hgov as [Hgov|Hgov]; try discriminate; auto.
  - assert (Hc : combine (fst idx) (snd idx)
                 = bb_top (box 8 7) ++ bb_bottom (box 8 7)).
    { clear - Hs Hn.
      apply set_boundary_conditions_inv in Hs
        as (_ & _ & yy & mn & mx & _ & _ & _ & ->).
      cbn in Hn. injection Hn as <- _. reflexivity. }
    rewrite Hl, Hc. reflexivity.
  - exact Hz.
Defined.

(** ** The output hook, step by step *)

Section HookFacts.
Context {T : Type} `{Scalar T}.
Variables GridInfo PrecisionPolicy Pop : Type.
Variable momentum_exchange_force :
  BC (T:=T) GridInfo PrecisionPolicy -> Pop -> Pop -> option (list (T * T)).

#[local] Abbreviation Sim := (Sim (T:=T) GridInfo PrecisionPolicy).
#[local] Abbreviation Kwargs := (Kwargs (T:=T) Pop).
#[local] Abbreviation output_data := (output_data momentum_exchange_force).
#[local] Abbreviation run_output := (run_output momentum_exchange_force).
#[local] Abbreviation reset_at_zero :=
  (reset_at_zero GridInfo PrecisionPolicy).

Lemma output_data_skip (g : Globals T) (self : Sim) (kw : Kwargs) :
  sampled g (timestep kw) = false ->
  output_data g self kw = Some (reset_at_zero self (timestep kw), []).
Proof. intros Hs. unfold output_data. now rewrite Hs. Qed.

Lemma output_data_sample (g : Globals T) (self : Sim) (kw : Kwargs)
    c fps fpc forces err cl0 cd0 :
  sampled g (timestep kw) = true ->
  nth_error (BCs self) 0 = Some c ->
  f_poststreaming kw = Some fps -> f_postcollision kw = Some fpc ->
  momentum_exchange_force c fps fpc = Some forces ->
  error (Np.inner (u_prev kw)) (Np.inner (u kw)) = Some err ->
  CL_max (reset_at_zero self (timestep kw)) = Some cl0 ->
  CD_max (reset_at_zero self (timestep kw)) = Some cd0 ->
  output_data g self kw =
  Some (with_max (reset_at_zero self (timestep kw))
          (Some (py_max cl0 (coefficient g (snd (Np.sum_axis0 forces)))))
          (Some (py_max cd0 (coefficient g (fst (Np.sum_axis0 forces))))),
        [Print err
               (coefficient g (snd (Np.sum_axis0 forces)))
               (coefficient g (fst (Np.sum_axis0 forces)));
         SaveImage (timestep kw) (Np.inner (u kw))]).
Proof.
  intros Hs Hc Hps Hpc Hf He Hcl Hcd. unfold output_data. rewrite Hs.
  fold (reset_at_zero self (timestep kw)).
  assert (Hb : BCs (reset_at_zero self (timestep kw)) = BCs self).
  { unfold reset_at_zero. now destruct (timestep kw =? 0)%Z. }
  rewrite Hb, Hc. cbn [bind]. rewrite Hps, Hpc. cbn [bind].
  rewrite Hf. cbn [bind]. rewrite He. cbn [bind]. rewrite Hcl, Hcd.
  reflexivity.
Qed.

(** Whatever a sampled call returns, it obtained it this way. *)
Lemma output_data_sample_inv (g : Globals T) (self : Sim) (kw : Kwargs) r :
  sampled g (timestep kw) = true ->
  output_data g self kw = Some r ->
  exists c fps fpc forces err cl0 cd0,
    nth_error (BCs self) 0 = Some c /\
    f_poststreaming kw = Some fps /\ f_postcollision kw = Some fpc /\
    momentum_exchange_force c fps fpc = Some forces /\
    error (Np.inner (u_prev kw)) (Np.inner (u kw)) = Some err /\
    CL_max (reset_at_zero self (timestep kw)) = Some cl0 /\
    CD_max (reset_at_zero self (timestep kw)) = Some cd0 /\
    r = (with_max (reset_at_zero self (timestep kw))
           (Some (py_max cl0 (coefficient g (snd (Np.sum_axis0 forces)))))
           (Some (py_max cd0 (coefficient g (fst (Np.sum_axis0 forces))))),
         [Print err
                (coefficient g (snd (Np.sum_axis0 forces)))
                (coefficient g (fst (Np.sum_axis0 forces)));
          SaveImage (timestep kw) (Np.inner (u kw))]).
Proof.
  intros Hs Ho.
  assert (Hb : BCs (reset_at_zero self (timestep kw)) = BCs self).
  { unfold reset_at_zero. now destruct (timestep kw =? 0)%Z. }
  unfold output_data in Ho. rewrite Hs in Ho.
  fold (reset_at_zero self (timestep kw)) in Ho. rewrite Hb in Ho.
  destruct (nth_error (BCs self) 0) as [c|]; [cbn [bind] in Ho|discriminate].
  destruct (f_poststreaming kw) as [fps|]; [cbn [bind] in Ho|discriminate].
  destruct (f_postcollision kw) as [fpc|]; [cbn [bind] in Ho|discriminate].
  destruct (momentum_exchange_force c fps fpc) as [forces|] eqn:Hf;
    [cbn [bind] in Ho|discriminate].
  destruct (error _ _) as [err|] eqn:He; [cbn [bind] in Ho|discriminate].
  destruct (CL_max _) as [cl0|] eqn:Hcl; [cbn [bind] in Ho|discriminate].
  destruct (CD_max _) as [cd0|] eqn:Hcd; [cbn [bind] in Ho|discriminate].
  injection Ho as <-. now exists c, fps, fpc, forces, err, cl0, cd0.
Qed.



End HookFacts.

(** ** Sums over the reals *)

Lemma fold_left_Rplus (l : list R) (a : R) :
  fold_left Rplus l a = a + fold_right Rplus 0 l.
Proof.
  revert a. induction l as [|x l IH]; cbn; intros a; [lra|].
  rewrite IH. lra.
Qed.

Lemma sum_R (l : list R) : Np.sum l = fold_right Rplus 0 l.
Proof. unfold Np.sum. cbn. rewrite fold_left_Rplus. lra. Qed.

Lemma sum_map_R {A} (h : A -> R) (l : list A) :
  Np.sum (map h l) = big_sum l h.
Proof.
  rewrite sum_R. unfold big_sum.
  induction l as [|a l IH]; cbn; [reflexivity|now rewrite IH].
Qed.

Lemma sum_app_R (l1 l2 : list R) : Np.sum (l1 ++ l2) = Np.sum l1 + Np.sum l2.
Proof.
  rewrite !sum_R. induction l1 as [|x l1 IH]; cbn; [lra|]. rewrite IH. lra.
Qed.

Lemma sum2_R (a : list (list R)) : Np.sum2 a = big_sum a Np.sum.
Proof.
  unfold Np.sum2, big_sum.
  induction a as [|r a IH]; cbn [concat fold_right].
  - now rewrite sum_R.
  - now rewrite sum_app_R, IH.
Qed.

Lemma big_sum_ext {A} (l : list A) (h k : A -> R) :
  (forall a, In a l -> h a = k a) -> big_sum l h = big_sum l k.
Proof.
  unfold big_sum. induction l as [|a l IH]; cbn; intros Hhk; [reflexivity|].
  rewrite (Hhk a) by now left. rewrite IH; [reflexivity|].
  intros; apply Hhk; now right.
Qed.

Lemma big_sum_map {A B} (f : A -> B) (l : list A) (h : B -> R) :
  big_sum (map f l) h = big_sum l (fun a => h (f a)).
Proof.
  unfold big_sum. induction l as [|a l IH]; cbn; [reflexivity|now rewrite IH].
Qed.

(** ** Sampling and the running maxima (C3, C10) *)

Lemma sampled_R (g : Globals R) (ts : Z) :
  sampled g ts = true <-> 0.8 * IZR (t_max g) < IZR ts.
Proof.
  unfold sampled, dec. cbn. rewrite Rltb_true.
  replace (8 / 10) with 0.8 by lra. tauto.
Qed.

Lemma not_sampled_R (g : Globals R) (ts : Z) :
  sampled g ts = false <-> IZR ts <= 0.8 * IZR (t_max g).
Proof.
  unfold sampled, dec. cbn. rewrite Rltb_false.
  replace (8 / 10) with 0.8 by lra. tauto.
Qed.

Section Maxima.
Variables GridInfo PrecisionPolicy Pop : Type.
Variable momentum_exchange_force :
  BC (T:=R) GridInfo PrecisionPolicy -> Pop -> Pop -> option (list (R * R)).
Variable g : Globals R.

#[local] Abbreviation SimR := (Sim (T:=R) GridInfo PrecisionPolicy).
#[local] Abbreviation KwargsR := (Kwargs (T:=R) Pop).
#[local] Abbreviation hook := (output_data momentum_exchange_force g).
#[local] Abbreviation run := (run_output momentum_exchange_force g).

(** One call: the maxima after it are the maxima before it (after the reset
    at timestep 0) joined with the coefficients it printed. *)
Lemma output_data_max (self : SimR) (kw : KwargsR) r cl0 cd0 :
  hook self kw = Some r ->
  CL_max (reset_at_zero _ _ self (timestep kw)) = Some cl0 ->
  CD_max (reset_at_zero _ _ self (timestep kw)) = Some cd0 ->
  CL_max (fst r) = Some (fold_left Rmax (printed_cl (snd r)) cl0) /\
  CD_max (fst r) = Some (fold_left Rmax (printed_cd (snd r)) cd0).
Proof.
  intros Ho Hcl Hcd. destruct (sampled g (timestep kw)) eqn:Hs.
  - destruct (output_data_sample_inv _ _ _ _ _ _ _ _ Hs Ho)
      as (c & fps & fpc & forces & err0 & cl1 & cd1
          & _ & _ & _ & _ & _ & Hcl1 & Hcd1 & ->).
    rewrite Hcl in Hcl1. rewrite Hcd in Hcd1.
    injection Hcl1 as <-. injection Hcd1 as <-.
    cbn. now rewrite !py_max_R.
  - rewrite output_data_skip in Ho by assumption. injection Ho as <-.
    cbn. now split.
Qed.

Lemma reset_nonzero (self : SimR) (ts : Z) :
  ts <> 0%Z -> reset_at_zero _ _ self ts = self.
Proof.
  intros Hts. unfold reset_at_zero. now destruct (Z.eqb_spec ts 0).
Qed.

Lemma printed_cl_app (e1 e2 : list (Event (T:=R))) :
  printed_cl (e1 ++ e2) = printed_cl e1 ++ printed_cl e2.
Proof. apply flat_map_app. Qed.

Lemma printed_cd_app (e1 e2 : list (Event (T:=R))) :
  printed_cd (e1 ++ e2) = printed_cd e1 ++ printed_cd e2.
Proof. apply flat_map_app. Qed.

Lemma run_output_max (calls : list KwargsR) :
  forall (self : SimR) r cl0 cd0,
    Forall (fun kw => timestep kw <> 0%Z) calls ->
    CL_max self = Some cl0 -> CD_max self = Some cd0 ->
    run self calls = Some r ->
    CL_max (fst r) = Some (fold_left Rmax (printed_cl (snd r)) cl0) /\
    CD_max (fst r) = Some (fold_left Rmax (printed_cd (snd r)) cd0).
Proof.
  induction calls as [|kw calls IH]; cbn; intros self r cl0 cd0 Hnz Hcl Hcd Hr.
  - injection Hr as <-. cbn. now split.
  - inversion Hnz as [|? ? Hkw Hrest]; subst.
    destruct (hook self kw) as [r1|] eqn:H1; [cbn in Hr|discriminate].
    destruct (run (fst r1) calls) as [r2|] eqn:H2; [cbn in Hr|discriminate].
    injection Hr as <-. cbn [fst snd].
    rewrite <- (reset_nonzero self _ Hkw) in Hcl, Hcd.
    destruct (output_data_max _ _ _ _ _ H1 Hcl Hcd) as [Hcl1 Hcd1].
    destruct (IH _ _ _ _ Hrest Hcl1 Hcd1 H2) as [Hcl2 Hcd2].
    now rewrite printed_cl_app, printed_cd_app, !fold_left_app.
Qed.

End Maxima.

(** C3.  A call of the hook computes and prints coefficients exactly when
    [timestep > 0.8 * t_max]; it then replaces each retained value by the
    larger of that value and the coefficient just computed, and otherwise
    leaves them alone (but for the reset at timestep 0).  Over a run that
    starts at timestep 0 the retained values are therefore the running maxima
    of the printed coefficients, starting from the initial [0.0]. *)
Theorem coefficients_sampled_running_max (GI PP Pop : Type)
    (mef : BC (T:=R) GI PP -> Pop -> Pop -> option (list (R * R)))
    (g : Globals R) :
  (forall (self : Sim (T:=R) GI PP) (kw : Kwargs (T:=R) Pop) r,
     output_data mef g self kw = Some r ->
     (0.8 * IZR (t_max g) < IZR (timestep kw) ->
      exists err cl cd cl0 cd0,
        snd r = [Print err cl cd; SaveImage (timestep kw) (Np.inner (u kw))] /\
        CL_max (reset_at_zero GI PP self (timestep kw)) = Some cl0 /\
        CD_max (reset_at_zero GI PP self (timestep kw)) = Some cd0 /\
        CL_max (fst r) = Some (Rmax cl0 cl) /\
        CD_max (fst r) = Some (Rmax cd0 cd)) /\
     (IZR (timestep kw) <= 0.8 * IZR (t_max g) ->
      r = (reset_at_zero GI PP self (timestep kw), []))) /\
  (forall (self : Sim (T:=R) GI PP) (kw0 : Kwargs (T:=R) Pop) rest r,
     timestep kw0 = 0%Z ->
     Forall (fun kw => timestep kw <> 0%Z) rest ->
     run_output mef g self (kw0 :: rest) = Some r ->
     CL_max (fst r) = Some (fold_left Rmax (printed_cl (snd r)) 0) /\
     CD_max (fst r) = Some (fold_left Rmax (printed_cd (snd r)) 0)).
Proof.
  split.
  - intros self kw r Ho. split.
    + intros Hs%sampled_R.
      destruct (output_data_sample_inv _ _ _ _ _ _ _ _ Hs Ho)
        as (c & fps & fpc & forces & err0 & cl0 & cd0
          & _ & _ & _ & _ & _ & Hcl & Hcd & ->).
      do 3 eexists. exists cl0, cd0. cbn [fst snd CL_max CD_max with_max].
      rewrite !py_max_R. repeat split; assumption.
    + intros Hs%not_sampled_R.
      rewrite output_data_skip in Ho by assumption. now injection Ho as <-.
  - intros self kw0 rest r H0 Hnz Hr. cbn [run_output] in Hr.
    destruct (output_data mef g self kw0) as [r1|] eqn:H1;
      [cbn [bind] in Hr|discriminate].
    destruct (run_output mef g (fst r1) rest) as [r2|] eqn:H2;
      [cbn [bind] in Hr|discriminate].
    injection Hr as <-. cbn [fst snd].
    assert (Hcl : CL_max (reset_at_zero GI PP self (timestep kw0)) = Some 0)
      by (rewrite H0; reflexivity).
    assert (Hcd : CD_max (reset_at_zero GI PP self (timestep kw0)) = Some 0)
      by (rewrite H0; reflexivity).
    destruct (output_data_max _ _ _ _ _ _ _ _ _ _ H1 Hcl Hcd) as [Hcl1 Hcd1].
    destruct (run_output_max _ _ _ _ _ _ _ _ _ _ Hnz Hcl1 Hcd1 H2)
      as [Hcl2 Hcd2].
    now rewrite printed_cl_app, printed_cd_app, !fold_left_app.
Qed.

(** *** A short run *)

(** In the small set-up a coefficient equals its force. *)
Lemma coefficient_small (f : R) : coefficient g_small f = f.
Proof. unfold coefficient, sq. cbn. field. Qed.

Lemma sum_axis0_small : Np.sum_axis0 forces_small = (4, -3).
Proof. unfold Np.sum_axis0, Np.sum. cbn. f_equal; lra. Qed.

Lemma sampled_small (ts : Z) :
  (8 < ts)%Z -> sampled g_small ts = true.
Proof. intros Hts. apply sampled_R. cbn. apply IZR_lt in Hts. lra. Qed.

Lemma not_sampled_small (ts : Z) :
  (ts <= 8)%Z -> sampled g_small ts = false.
Proof. intros Hts. apply not_sampled_R. cbn. apply IZR_le in Hts. lra. Qed.

(** The middle node keeps its speed, so the error of the step is 0. *)
Lemma error_small : error (Np.inner u_before) (Np.inner u_after) = Some 0.
Proof.
  unfold error, Np.abs_diff, Np.sum2, Np.sum. cbn. f_equal.
  replace (1 * 1 + 0 * 0) with 1 by lra.
  replace (0 * 0 + 1 * 1) with 1 by lra.
  rewrite Rminus_diag, Rabs_R0. lra.
Qed.

(** The run [0, 5, 9]: nothing is printed before step 9. *)
Lemma run_small :
  run_output mef_small g_small sim_ready [kw_at 0; kw_at 5; kw_at 9] =
  Some (with_max sim_ready (Some (py_max 0 (-3))) (Some (py_max 0 4)),
        [Print 0 (-3) 4;
         SaveImage 9 (Np.inner u_after)]).
Proof.
  cbn [run_output].
  rewrite output_data_skip by now apply not_sampled_small.
  cbn [bind fst snd].
  rewrite output_data_skip by now apply not_sampled_small.
  cbn [bind fst snd].
  erewrite output_data_sample;
    [ | now apply sampled_small | reflexivity | reflexivity | reflexivity
      | reflexivity | exact error_small | reflexivity | reflexivity ].
  cbn [bind fst snd app]. rewrite sum_axis0_small. cbn [fst snd].
  rewrite !coefficient_small. reflexivity.
Qed.

Lemma coefficients_sampled_running_max_witness :
  exists r,
    run_output mef_small g_small sim_ready [kw_at 0; kw_at 5; kw_at 9] = Some r /\
    printed_cl (snd r) = [-3] /\ printed_cd (snd r) = [4] /\
    CL_max (fst r) = Some (fold_left Rmax [-3] 0) /\
    CD_max (fst r) = Some (fold_left Rmax [4] 0).
Proof.
  eexists. split; [exact run_small|].
  split; [reflexivity|]. split; [reflexivity|].
  exact (proj2 (coefficients_sampled_running_max unit unit unit mef_small g_small)
           sim_ready (kw_at 0) [kw_at 5; kw_at 9] _ eq_refl
           ltac:(repeat constructor; discriminate) run_small).
Defined.

(** *** Signs of the retained values *)

Section Signs.
Variables GridInfo PrecisionPolicy Pop : Type.
Variable momentum_exchange_force :
  BC (T:=R) GridInfo PrecisionPolicy -> Pop -> Pop -> option (list (R * R)).
Variable g : Globals R.

#[local] Abbreviation hook' := (output_data momentum_exchange_force g).
#[local] Abbreviation run' := (run_output momentum_exchange_force g).

Lemma reset_nonneg (self : Sim (T:=R) GridInfo PrecisionPolicy) (ts : Z) :
  nonneg_opt (CL_max self) -> nonneg_opt (CD_max self) ->
  nonneg_opt (CL_max (reset_at_zero _ _ self ts)) /\
  nonneg_opt (CD_max (reset_at_zero _ _ self ts)).
Proof.
  intros Hl Hd. unfold reset_at_zero.
  destruct (ts =? 0)%Z; cbn; [lra|now split].
Qed.

Lemma output_data_nonneg (self : Sim (T:=R) GridInfo PrecisionPolicy)
    (kw : Kwargs (T:=R) Pop) r :
  hook' self kw = Some r ->
  nonneg_opt (CL_max self) -> nonneg_opt (CD_max self) ->
  nonneg_opt (CL_max (fst r)) /\ nonneg_opt (CD_max (fst r)).
Proof.
  intros Ho Hl Hd.
  destruct (reset_nonneg self (timestep kw) Hl Hd) as [Hl0 Hd0].
  destruct (sampled g (timestep kw)) eqn:Hs.
  - destruct (output_data_sample_inv _ _ _ _ _ _ _ _ Hs Ho)
      as (c & fps & fpc & forces & err0 & cl0 & cd0
          & _ & _ & _ & _ & _ & Hcl & Hcd & ->).
    rewrite Hcl in Hl0. rewrite Hcd in Hd0. cbn in *.
    rewrite !py_max_R.
    split; [apply Rle_trans with cl0|apply Rle_trans with cd0];
      (assumption || apply Rmax_l).
  - rewrite output_data_skip in Ho by assumption. injection Ho as <-.
    now split.
Qed.

Lemma run_output_nonneg (calls : list (Kwargs (T:=R) Pop)) :
  forall (self : Sim (T:=R) GridInfo PrecisionPolicy) r,
    run' self calls = Some r ->
    nonneg_opt (CL_max self) -> nonneg_opt (CD_max self) ->
    nonneg_opt (CL_max (fst r)) /\ nonneg_opt (CD_max (fst r)).
Proof.
  induction calls as [|kw calls IH]; cbn; intros self r Hr Hl Hd.
  - injection Hr as <-. now split.
  - destruct (hook' self kw) as [r1|] eqn:H1; [cbn in Hr|discriminate].
    destruct (run' (fst r1) calls) as [r2|] eqn:H2; [cbn in Hr|discriminate].
    injection Hr as <-. cbn [fst].
    destruct (output_data_nonneg _ _ _ H1 Hl Hd) as [Hl1 Hd1].
    exact (IH _ _ H2 Hl1 Hd1).
Qed.

Lemma output_data_zero (self : Sim (T:=R) GridInfo PrecisionPolicy)
    (kw : Kwargs (T:=R) Pop) r :
  hook' self kw = Some r ->
  zero_or_unset (CL_max self) ->
  Forall (fun cl => cl < 0) (printed_cl (snd r)) ->
  zero_or_unset (CL_max (fst r)).
Proof.
  intros Ho Hz Hneg.
  assert (Hz0 : zero_or_unset (CL_max (reset_at_zero _ _ self (timestep kw)))).
  { unfold reset_at_zero. destruct (timestep kw =? 0)%Z; [now right|exact Hz]. }
  destruct (sampled g (timestep kw)) eqn:Hs.
  - destruct (output_data_sample_inv _ _ _ _ _ _ _ _ Hs Ho)
      as (c & fps & fpc & forces & err0 & cl0 & cd0
          & _ & _ & _ & _ & _ & Hcl & Hcd & ->).
    rewrite Hcl in Hz0. destruct Hz0 as [Hn|Hz0]; [discriminate|].
    injection Hz0 as ->. cbn in Hneg. inversion Hneg as [|? ? Hlt _]; subst.
    right. cbn. rewrite py_max_R. f_equal. apply Rmax_left. lra.
  - rewrite output_data_skip in Ho by assumption. now injection Ho as <-.
Qed.

Lemma run_output_zero (calls : list (Kwargs (T:=R) Pop)) :
  forall (self : Sim (T:=R) GridInfo PrecisionPolicy) r,
    run' self calls = Some r ->
    zero_or_unset (CL_max self) ->
    Forall (fun cl => cl < 0) (printed_cl (snd r)) ->
    zero_or_unset (CL_max (fst r)).
Proof.
  induction calls as [|kw calls IH]; cbn; intros self r Hr Hz Hneg.
  - now injection Hr as <-.
  - destruct (hook' self kw) as [r1|] eqn:H1; [cbn in Hr|discriminate].
    destruct (run' (fst r1) calls) as [r2|] eqn:H2; [cbn in Hr|discriminate].
    injection Hr as <-. cbn [fst snd] in *.
    rewrite printed_cl_app in Hneg. apply Forall_app in Hneg as [Hn1 Hn2].
    exact (IH _ _ H2 (output_data_zero _ _ _ H1 Hz Hn1) Hn2).
Qed.

End Signs.

(** One turn of the sweep records non-negative values. *)
Lemma sweep_step_nonneg (GI PP Pop : Type)
    (mef : BC (T:=R) GI PP -> Pop -> Pop -> option (list (R * R)))
    (gi : GI) (pp : PP)
    (bb : Z -> Z -> BoundingBox) (calls : Z -> list (Kwargs (T:=R) Pop))
    (d : Z) (c : R * R) :
  sweep_step mef gi pp bb calls d = Some c ->
  0 <= fst c /\ 0 <= snd c.
Proof.
  unfold sweep_step. intros Hsw.
  destruct (setup d) as [[g0 kw]|]; [cbn [bind fst snd] in Hsw|discriminate].
  destruct (Cylinder g0 kw gi pp _) as [sim|] eqn:Hc;
    [cbn [bind] in Hsw|discriminate].
  destruct (run_output _ g0 sim _) as [r|] eqn:Hr;
    [cbn [bind] in Hsw|discriminate].
  destruct (CL_max (fst r)) as [cl'|] eqn:Hcl; [cbn [bind] in Hsw|discriminate].
  destruct (CD_max (fst r)) as [cd'|] eqn:Hcd; [cbn [bind] in Hsw|discriminate].
  injection Hsw as <-.
  unfold Cylinder in Hc.
  apply set_boundary_conditions_inv in Hc
    as (_ & _ & yy & mn & mx & _ & _ & _ & ->).
  destruct (run_output_nonneg _ _ _ _ _ _ _ _ Hr I I) as [Hl Hd].
  rewrite Hcl in Hl. rewrite Hcd in Hd. now split.
Qed.

Lemma mapM_Forall {A B} (f : A -> option B) (P : B -> Prop) (l : list A) :
  (forall a b, f a = Some b -> P b) ->
  forall r, mapM f l = Some r -> Forall P r.
Proof.
  intros Hf. induction l as [|a l IH]; cbn; intros r Hr.
  - injection Hr as <-. constructor.
  - destruct (f a) as [b|] eqn:Hb; [cbn in Hr|discriminate].
    destruct (mapM f l) as [bs|]; [cbn in Hr|discriminate].
    injection Hr as <-. constructor; eauto.
Qed.

(** C10.  Whatever the run, the values [main] appends to [CL_list] and
    [CD_list] and writes out are non-negative.  In a run of the hook on a
    fresh solver the retained values, once set, are non-negative, and the
    retained lift is [0.0] when every printed lift coefficient is negative.
    A call at timestep 0 before the sampling window sets both to [0.0]. *)
Theorem recorded_maxima_nonneg (GI PP Pop : Type)
    (mef : BC (T:=R) GI PP -> Pop -> Pop -> option (list (R * R))) :
  (forall gi pp bb calls res,
     main mef gi pp bb calls = Some res ->
     Forall (fun v => 0 <= v) (CL res) /\ Forall (fun v => 0 <= v) (CD res)) /\
  (forall g (self : Sim (T:=R) GI PP) calls r,
     CL_max self = None -> CD_max self = None ->
     run_output mef g self calls = Some r ->
     (forall v, CL_max (fst r) = Some v ->
        0 <= v /\
        (Forall (fun cl => cl < 0) (printed_cl (snd r)) -> v = 0)) /\
     (forall v, CD_max (fst r) = Some v -> 0 <= v)) /\
  (forall g (self : Sim (T:=R) GI PP) (kw : Kwargs (T:=R) Pop) r,
     timestep kw = 0%Z ->
     IZR (timestep kw) <= 0.8 * IZR (t_max g) ->
     output_data mef g self kw = Some r ->
     CL_max (fst r) = Some 0 /\ CD_max (fst r) = Some 0).
Proof.
  split; [|split].
  - intros gi pp bb calls res Hm. unfold main in Hm.
    destruct (mapM _ diam_list) as [rs|] eqn:Hrs; [cbn [bind] in Hm|discriminate].
    injection Hm as <-. cbn [CL CD].
    pose proof (mapM_Forall _ (fun c => 0 <= fst c /\ 0 <= snd c) _
                  (sweep_step_nonneg GI PP Pop mef gi pp bb calls) _ Hrs) as Hall.
    split; apply Forall_map; eapply Forall_impl; try exact Hall;
      cbn; intros c Hc; apply Hc.
  - intros g self calls r Hl Hd Hr.
    assert (Hnl : nonneg_opt (CL_max self)) by (rewrite Hl; exact I).
    assert (Hnd : nonneg_opt (CD_max self)) by (rewrite Hd; exact I).
    destruct (run_output_nonneg _ _ _ _ _ _ _ _ Hr Hnl Hnd) as [Hl' Hd'].
    split.
    + intros v Hv. rewrite Hv in Hl'. split; [exact Hl'|].
      intros Hneg.
      destruct (run_output_zero _ _ _ _ _ _ _ _ Hr (or_introl Hl) Hneg)
        as [Hn|Hz]; congruence.
    + intros v Hv. now rewrite Hv in Hd'.
  - intros g self kw r H0 Hs%not_sampled_R Ho.
    rewrite output_data_skip in Ho by assumption. injection Ho as <-.
    unfold reset_at_zero. rewrite H0. now split.
Qed.

(** How one turn of the sweep comes to its pair of values. *)
Lemma sweep_step_eq {T} `{Scalar T} (GI PP Pop : Type)
    (mef : BC (T:=T) GI PP -> Pop -> Pop -> option (list (T * T)))
    (gi : GI) (pp : PP) (bb : Z -> Z -> BoundingBox)
    (calls : Z -> list (Kwargs (T:=T) Pop)) (d : Z)
    g kw sim r cl cd :
  setup d = Some (g, kw) ->
  Cylinder g kw gi pp (bb (kw_nx kw) (kw_ny kw)) = Some sim ->
  run_output mef g sim (calls (t_max g)) = Some r ->
  CL_max (fst r) = Some cl -> CD_max (fst r) = Some cd ->
  sweep_step mef gi pp bb calls d = Some (cl, cd).
Proof.
  intros Hs Hc Hr Hcl Hcd. unfold sweep_step.
  rewrite Hs. cbn [bind fst snd]. rewrite Hc. cbn [bind].
  rewrite Hr. cbn [bind]. now rewrite Hcl, Hcd.
Qed.

Lemma Cylinder_eq {T} `{Scalar T} (GI PP : Type) (g : Globals T)
    (kw : SimKwargs T) (gi : GI) (pp : PP) (bb : BoundingBox) :
  Cylinder g kw gi pp bb = set_boundary_conditions g (fresh kw gi pp bb).
Proof. reflexivity. Qed.

Lemma mapM_single {A B} (f : A -> option B) (a : A) (b : B) :
  f a = Some b -> mapM f [a] = Some [b].
Proof. intros Hf. cbn. now rewrite Hf. Qed.

Lemma main_eq {T} `{Scalar T} (GI PP Pop : Type)
    (mef : BC (T:=T) GI PP -> Pop -> Pop -> option (list (T * T)))
    (gi : GI) (pp : PP) (bb : Z -> Z -> BoundingBox)
    (calls : Z -> list (Kwargs (T:=T) Pop)) rs :
  mapM (sweep_step mef gi pp bb calls) diam_list = Some rs ->
  main mef gi pp bb calls
  = Some {| resolution_list := diam_list;
            CL := map fst rs; CD := map snd rs |}.
Proof. intros Hrs. unfold main. now rewrite Hrs. Qed.

(** *** The documented sweep over the reals *)

Lemma setup_80_R : setup (T:=R) 80 = Some (g80, kwargs80).
Proof.
  unfold setup, scale_factor, visc, omega, dec. cbn [Z.eqb bind Pos.eqb].
  cbn [s_trunc s_mul s_div s_add of_Z R_scalar].
  rewrite (Rtrunc_eq (41 / 10 * 80) 328) by lra.
  rewrite (Rtrunc_eq (500 / (80 / 80)) 500) by (field_simplify; lra).
  rewrite (Rtrunc_eq (10000 / (80 / 80)) 10000) by (field_simplify; lra).
  rewrite (Rtrunc_eq (1000000 / (80 / 80)) 1000000) by (field_simplify; lra).
  reflexivity.
Qed.

Lemma Cylinder_80 :
  exists sim,
    Cylinder (GridInfo:=unit) (PrecisionPolicy:=unit)
      g80 kwargs80 tt tt (box (kw_nx kwargs80) (kw_ny kwargs80)) = Some sim.
Proof.
  rewrite Cylinder_eq.
  apply set_boundary_conditions_total; cbn [nx ny boundingBoxIndices kw_nx
    kw_ny kwargs80 bb_left box fresh]; try lia.
  - unfold Np.range. cbn. discriminate.
  - apply Forall_forall. intros [i j] Hij.
    apply in_map_iff in Hij as (j' & Heq & Hj). injection Heq as <- <-.
    apply NpFacts.in_range in Hj. cbn. lia.
Qed.

Lemma not_sampled_80_first : sampled g80 0 = false.
Proof. apply not_sampled_R. cbn [t_max g80]. lra. Qed.

Lemma sampled_80_last : sampled g80 1000000 = true.
Proof. apply sampled_R. cbn [t_max g80]. lra. Qed.

(** A run that samples step 0 and one later step. *)
Lemma run_first_last (g : Globals R) (sim : Sim (T:=R) unit unit)
    (c : BC (T:=R) unit unit) (t : Z) :
  nth_error (BCs sim) 0 = Some c ->
  sampled g 0 = false -> sampled g t = true -> t <> 0%Z ->
  exists cl cd r,
    run_output mef_small g sim [kw_at 0; kw_at t] = Some r /\
    CL_max (fst r) = Some cl /\ CD_max (fst r) = Some cd.
Proof.
  intros Hc H0 Ht Hnz. cbn [run_output].
  rewrite output_data_skip by exact H0. cbn [bind fst snd].
  assert (Hr : reset_at_zero unit unit
                 (reset_at_zero unit unit sim (timestep (kw_at 0)))
                 (timestep (kw_at t))
               = with_max sim (Some 0) (Some 0)).
  { cbn [timestep kw_at]. unfold reset_at_zero at 2. cbn [Z.eqb].
    unfold reset_at_zero. now destruct (Z.eqb_spec t 0). }
  erewrite output_data_sample;
    [ | exact Ht | exact Hc | reflexivity | reflexivity | reflexivity
      | exact error_small
      | rewrite Hr; reflexivity | rewrite Hr; reflexivity ].
  cbn [bind fst snd]. do 3 eexists. split; [reflexivity|].
  cbn [fst CL_max CD_max with_max]. split; reflexivity.
Qed.

(** A run of the documented set-up that samples step 0 and the last step. *)
Lemma main_80 :
  exists cl cd,
    main mef_small tt tt box (fun t => [kw_at 0; kw_at t])
    = Some {| resolution_list := diam_list;
              CL := map fst [(cl, cd)]; CD := map snd [(cl, cd)] |}.
Proof.
  destruct Cylinder_80 as (sim & Hsim).
  pose proof Hsim as Hset. rewrite Cylinder_eq in Hset.
  destruct (set_boundary_conditions_head unit unit g80
              (fresh kwargs80 tt tt (box (kw_nx kwargs80) (kw_ny kwargs80)))
              sim eq_refl Hset) as (Hc & _ & _).
  destruct (run_first_last g80 sim _ (t_max g80) Hc not_sampled_80_first
              sampled_80_last ltac:(discriminate))
    as (cl & cd & r & Hr & Hcl & Hcd).
  exists cl, cd.
  apply main_eq.
  apply (mapM_single (sweep_step mef_small tt tt box
                        (fun t => [kw_at 0; kw_at t])) 80%Z (cl, cd)).
  exact (sweep_step_eq unit unit unit mef_small tt tt box
             (fun t => [kw_at 0; kw_at t]) 80 g80 kwargs80 sim r cl cd
             setup_80_R Hsim Hr Hcl Hcd).
Qed.

Lemma recorded_maxima_nonneg_witness :
  exists res r,
    main mef_small tt tt box (fun t => [kw_at 0; kw_at t]) = Some res /\
    Forall (fun v => 0 <= v) (CL res) /\ Forall (fun v => 0 <= v) (CD res) /\
    run_output mef_small g_small sim_ready [kw_at 0; kw_at 5; kw_at 9] = Some r /\
    printed_cl (snd r) = [-3] /\ CL_max (fst r) = Some 0.
Proof.
  destruct main_80 as (cl & cd & Hm).
  destruct (recorded_maxima_nonneg unit unit unit mef_small)
    as (Hmain & Hrun & _).
  destruct (Hmain tt tt box _ _ Hm) as [Hl Hd].
  destruct (Hrun g_small sim_ready _ _ eq_refl eq_refl run_small) as [Hcl _].
  do 2 eexists. split; [exact Hm|]. split; [exact Hl|]. split; [exact Hd|].
  split; [exact run_small|]. split; [reflexivity|].
  cbn [fst snd CL_max with_max] in *.
  destruct (Hcl _ eq_refl) as [_ Hz]. f_equal. apply Hz.
  repeat constructor. lra.
Defined.

(** ** The tracked body comes first (C7) *)


Lemma sampled_small_9 : sampled g_small (timestep (kw_at 9)) = true.
Proof. now apply sampled_small. Qed.


(** ** The convergence error (C1) *)

Lemma removelast_seq (a m : nat) : removelast (seq a (S m)) = seq a m.
Proof. rewrite seq_S. apply removelast_last. Qed.

Lemma removelast_map_comm {A B} (f : A -> B) (l : list A) :
  removelast (map f l) = map f (removelast l).
Proof.
  induction l as [|a [|b l] IH]; cbn; try reflexivity.
  cbn in IH. now rewrite IH.
Qed.

Lemma removelast_seq_pred (a k : nat) : removelast (seq a k) = seq a (k - 1).
Proof.
  destruct k as [|k]; [reflexivity|].
  now rewrite removelast_seq, Nat.sub_succ, Nat.sub_0_r.
Qed.

Lemma tl_map_seq {A} (h : nat -> A) (n : nat) :
  tl (map h (seq 0 n)) = map h (seq 1 (n - 1)).
Proof.
  destruct n as [|n]; [reflexivity|].
  now rewrite Nat.sub_succ, Nat.sub_0_r.
Qed.

Lemma slice_range {A} (f : Z -> A) (ny : Z) :
  Np.slice_1_m1 (map f (Np.range ny)) = map f (interior ny).
Proof.
  unfold Np.slice_1_m1, Np.range, interior.
  rewrite !map_map, tl_map_seq, removelast_map_comm, removelast_seq_pred.
  now replace (Z.to_nat ny - 1 - 1)%nat with (Z.to_nat ny - 2)%nat by lia.
Qed.

Lemma inner_grid {A} (f : Z * Z -> A) (nx ny : Z) :
  Np.inner (grid nx ny f)
  = map (fun i => map (fun j => f (i, j)) (interior ny)) (Np.range nx).
Proof.
  unfold Np.inner, grid. rewrite map_map. apply map_ext. intros i.
  apply (slice_range (fun j => f (i, j))).
Qed.

Lemma combine_map_same {A B C} (F : A -> B) (G : A -> C) (l : list A) :
  combine (map F l) (map G l) = map (fun x => (F x, G x)) l.
Proof. induction l as [|a l IH]; cbn; [reflexivity|now rewrite IH]. Qed.

Lemma stretch_length {A} (l : list A) : Np.stretch (length l) l = l.
Proof. now destruct l as [|x [|y l]]. Qed.

Lemma bdim_refl (n : nat) : Np.bdim n n = Some n.
Proof. unfold Np.bdim. now rewrite Nat.eqb_refl. Qed.

(** Two arrays tabulated over the same index lists have one shape, which
    broadcasting leaves alone. *)
Lemma shape2_tabulated {A} (I J : list Z) (F : Z -> Z -> A) :
  Np.shape2 (map (fun i => map (F i) J) I)
  = (length I, match I with [] => 0%nat | _ => length J end).
Proof.
  unfold Np.shape2. rewrite length_map.
  destruct I as [|i I]; cbn [map]; [reflexivity|now rewrite length_map].
Qed.

Lemma broadcast_to_tabulated {A} (I J : list Z) (F : Z -> Z -> A) :
  Np.broadcast_to (length I, match I with [] => 0%nat | _ => length J end)
    (map (fun i => map (F i) J) I)
  = map (fun i => map (F i) J) I.
Proof.
  unfold Np.broadcast_to. cbn [fst snd].
  rewrite <- (length_map (fun i => map (F i) J) I) at 1.
  rewrite stretch_length, map_map.
  destruct I as [|i0 I]; [reflexivity|].
  apply map_ext. intros i.
  rewrite <- (length_map (F i) J) at 1. apply stretch_length.
Qed.

Lemma abs_diff_tabulated (I J : list Z) (F G : Z -> Z -> R) :
  Np.abs_diff (map (fun i => map (F i) J) I) (map (fun i => map (G i) J) I)
  = Some (map (fun i => map (fun j => Rabs (F i j - G i j)) J) I).
Proof.
  unfold Np.abs_diff. rewrite !shape2_tabulated. cbn [fst snd].
  rewrite !bdim_refl. cbn [bind]. rewrite !broadcast_to_tabulated.
  rewrite combine_map_same, map_map. f_equal.
  apply map_ext. intros i. cbn [fst snd].
  now rewrite combine_map_same, map_map.
Qed.

(** The error of two fields tabulated over the same index lists. *)
Lemma error_tabulated (I J : list Z) (fp fu : Z * Z -> R * R) :
  error (map (fun i => map (fun j => fp (i, j)) J) I)
        (map (fun i => map (fun j => fu (i, j)) J) I)
  = Some (big_sum I (fun i =>
      big_sum J (fun j => Rabs (speed (fp (i, j)) - speed (fu (i, j)))))).
Proof.
  unfold error, Np.norm_axis2. rewrite !map_map.
  rewrite (map_ext (fun i => map Np.norm2 (map (fun j => fp (i, j)) J))
                   (fun i => map (fun j => speed (fp (i, j))) J))
    by (intros i; apply map_map).
  rewrite (map_ext (fun i => map Np.norm2 (map (fun j => fu (i, j)) J))
                   (fun i => map (fun j => speed (fu (i, j))) J))
    by (intros i; apply map_map).
  rewrite (abs_diff_tabulated I J (fun i j => speed (fp (i, j)))
             (fun i j => speed (fu (i, j)))).
  cbn [bind]. f_equal. rewrite sum2_R, big_sum_map.
  apply big_sum_ext. intros i _. now rewrite sum_map_R.
Qed.

Lemma l1_change_small : l1_change u_before u_after = 2.
Proof.
  unfold l1_change, big_sum. cbn.
  rewrite !Rminus_diag, Rabs_R0.
  replace (0 - 1) with (- (1)) by lra. rewrite Rabs_Ropp.
  replace (1 - 0) with 1 by lra. rewrite Rabs_R1. lra.
Qed.

Lemma l1_change_inner_small :
  l1_change (Np.inner u_before) (Np.inner u_after) = 2.
Proof.
  unfold l1_change, big_sum. cbn.
  replace (0 - 1) with (- (1)) by lra. rewrite Rabs_Ropp.
  replace (1 - 0) with 1 by lra. rewrite Rabs_R1. lra.
Qed.

(** Fields of different shapes: a single node against two rows of two is
    stretched (|5-1| + |5-2| + |5-10| + |5-0|), two columns against three
    are refused. *)
Example error_broadcast_float :
  (error (T:=float) [[(3, 4)]] [[(0, 1); (0, 2)]; [(6, 8); (0, 0)]]
   = Some 17)%float /\
  (error (T:=float) [[(3, 4); (3, 4)]] [[(0, 1); (0, 2); (0, 3)]]
   = None)%float.
Proof. vm_compute. split; reflexivity. Qed.

(** In machine arithmetic the same step prints an error of exactly zero. *)
Example error_small_float :
  (error (T:=float) [[(1, 0)]] [[(0, 1)]] = Some 0)%float.
Proof. vm_compute. reflexivity. Qed.

(** C1, as the code has it.  On a call with [timestep > 0.8 * t_max] the
    printed error is the sum, over the nodes of the fields with the first and
    last row along the second axis removed, of the absolute difference of the
    speeds (Euclidean norms of the velocity) in the current field and in the
    previous one handed to the hook; on other calls no error is printed. *)
Theorem error_is_speed_change (GI PP Pop : Type)
    (mef : BC (T:=R) GI PP -> Pop -> Pop -> option (list (R * R)))
    (g : Globals R) (self : Sim (T:=R) GI PP) (kw : Kwargs (T:=R) Pop) r
    (nx ny : Z) (fp fu : Z * Z -> R * R) :
  u_prev kw = grid nx ny fp ->
  u kw = grid nx ny fu ->
  output_data mef g self kw = Some r ->
  (0.8 * IZR (t_max g) < IZR (timestep kw) ->
   printed_err (snd r) =
   [big_sum (Np.range nx) (fun i =>
      big_sum (interior ny) (fun j =>
        Rabs (speed (fp (i, j)) - speed (fu (i, j)))))]) /\
  (IZR (timestep kw) <= 0.8 * IZR (t_max g) -> printed_err (snd r) = []).
Proof.
  intros Hp Hu Ho. split.
  - intros Hs%sampled_R.
    destruct (output_data_sample_inv _ _ _ _ _ _ _ _ Hs Ho)
      as (c & fps & fpc & forces & err0 & cl0 & cd0
          & _ & _ & _ & _ & He & _ & _ & ->).
    cbn [snd printed_err flat_map app]. f_equal.
    rewrite Hp, Hu, !inner_grid, error_tabulated in He.
    now injection He as <-.
  - intros Hs%not_sampled_R.
    rewrite output_data_skip in Ho by assumption. now injection Ho as <-.
Qed.

Lemma output_small_9 :
  output_data mef_small g_small
    (with_max sim_ready (Some 0) (Some 0)) (kw_at 9) =
  Some (with_max sim_ready (Some (py_max 0 (-3))) (Some (py_max 0 4)),
        [Print 0 (-3) 4;
         SaveImage 9 (Np.inner u_after)]).
Proof.
  erewrite output_data_sample;
    [ | now apply sampled_small | reflexivity | reflexivity | reflexivity
      | reflexivity | exact error_small | reflexivity | reflexivity ].
  rewrite sum_axis0_small. cbn [fst snd].
  rewrite !coefficient_small. reflexivity.
Qed.

Lemma error_is_speed_change_witness :
  exists r,
    output_data mef_small g_small
      (with_max sim_ready (Some 0) (Some 0)) (kw_at 9) = Some r /\
    printed_err (snd r) =
    [big_sum (Np.range 1) (fun i =>
       big_sum (interior 3) (fun j =>
         Rabs (speed (f_before (i, j)) - speed (f_after (i, j)))))].
Proof.
  eexists. split; [exact output_small_9|].
  refine (proj1 (error_is_speed_change unit unit unit mef_small g_small
                   (with_max sim_ready (Some 0) (Some 0)) (kw_at 9) _
                   1 3 f_before f_after eq_refl eq_refl output_small_9) _).
  cbn. lra.
Defined.

(** C1 as the specification states it fails: in the short run the middle node keeps its speed
    while its velocity turns, so the printed error is 0 although the
    velocity field changed by 2 in the L1 norm, with or without the
    boundary rows. *)
Lemma error_is_not_l1_change :
  ~ (forall (g : Globals R) (self : Sim (T:=R) unit unit)
            (kw : Kwargs (T:=R) unit) r err,
       output_data mef_small g self kw = Some r ->
       In err (printed_err (snd r)) ->
       err = l1_change (u_prev kw) (u kw)) /\
  ~ (forall (g : Globals R) (self : Sim (T:=R) unit unit)
            (kw : Kwargs (T:=R) unit) r err,
       output_data mef_small g self kw = Some r ->
       In err (printed_err (snd r)) ->
       err = l1_change (Np.inner (u_prev kw)) (Np.inner (u kw))).
Proof.
  split; intros Hall;
    specialize (Hall g_small _ (kw_at 9) _ _ output_small_9
                  (or_introl eq_refl));
    cbn [u_prev u kw_at] in Hall.
  - rewrite l1_change_small in Hall. lra.
  - rewrite l1_change_inner_small in Hall. lra.
Qed.

(** ** The relaxation parameter (C5) *)

(** C5.  Whenever the set-up of a diameter goes through, the [omega] handed
    to the solver is [1 / (3 nu + 0.5)] for the viscosity
    [nu = prescribed_vel * diam / Re] with [Re = 100], that is
    [1 / (3 * prescribed_vel * diam / 100 + 0.5)]. *)
Theorem omega_from_viscosity (d : Z) (g : Globals R) (kw : SimKwargs R) :
  setup (T:=R) d = Some (g, kw) ->
  diam g = d /\
  visc (prescribed_vel g) d = prescribed_vel g * IZR d / 100 /\
  kw_omega kw = 1 / (3 * visc (prescribed_vel g) d + 0.5) /\
  kw_omega kw = 1 / (3 * prescribed_vel g * IZR d / 100 + 0.5).
Proof.
  unfold setup, scale_factor. intros Hs.
  destruct (d =? 0)%Z; [discriminate|].
  cbn [bind s_trunc R_scalar Rtrunc] in Hs. injection Hs as <- <-.
  cbn [diam prescribed_vel kw_omega].
  unfold omega, visc, dec. cbn [s_add s_mul s_div of_Z R_scalar].
  repeat split; f_equal; lra.
Qed.

Lemma omega_from_viscosity_witness :
  setup (T:=R) 80 = Some (g80, kwargs80) /\
  prescribed_vel g80 = 0.003 /\
  kw_omega kwargs80 = 1 / (3 * prescribed_vel g80 * 80 / 100 + 0.5).
Proof.
  split; [exact setup_80_R|]. split; [cbn; lra|].
  exact (proj2 (proj2 (proj2
           (omega_from_viscosity 80 g80 kwargs80 setup_80_R)))).
Defined.

(** ** The documented scenario (C4) *)

(** C4, as the code has it.  For [diam = 80] the channel is 1760 nodes long
    and 328 nodes wide (22 and 4.1 diameters), in machine arithmetic as over
    the reals; the cylinder has centre [(160, 160)] and squared radius
    [40^2]; and [omega] is computed from the viscosity that gives
    [Re = 100]. *)
Theorem scenario_80 :
  setup (T:=R) 80 = Some (g80, kwargs80) /\
  kw_nx kwargs80 = 1760%Z /\ kw_ny kwargs80 = 328%Z /\
  (exists gf kf,
     setup (T:=float) 80 = Some (gf, kf) /\
     kw_nx kf = 1760%Z /\ kw_ny kf = 328%Z) /\
  diam g80 = 80%Z /\
  centre g80 = (160, 160) /\
  radius2 g80 = 40 ^ 2 /\
  prescribed_vel g80 * IZR (diam g80) / visc (prescribed_vel g80) 80 = 100 /\
  kw_omega kwargs80 = 1 / (3 * visc (prescribed_vel g80) 80 + 0.5).
Proof.
  split; [exact setup_80_R|]. split; [reflexivity|]. split; [reflexivity|].
  split.
  { do 2 eexists. split; [exact setup_80_float|]. split; reflexivity. }
  split; [reflexivity|]. split.
  { unfold centre. cbn. f_equal; lra. }
  split.
  { unfold radius2, sq. cbn. lra. }
  split.
  { unfold visc. cbn. field. }
  unfold visc. cbn. f_equal; lra.
Qed.

(** C4 as the specification states it fails: the set-up for [diam = 80] does not give a channel
    of 220 by 41 nodes, neither over the reals nor in machine arithmetic,
    and the cylinder's centre is not at height 164.1. *)
Lemma scenario_is_not_220_by_41 :
  ~ (exists g kw,
       setup (T:=R) 80 = Some (g, kw) /\
       kw_nx kw = 220%Z /\ kw_ny kw = 41%Z) /\
  ~ (exists g kw,
       setup (T:=float) 80 = Some (g, kw) /\
       kw_nx kw = 220%Z /\ kw_ny kw = 41%Z) /\
  centre g80 <> (160, 164.1).
Proof.
  split; [|split].
  - intros (g & kw & Hs & Hx & _). rewrite setup_80_R in Hs.
    apply (f_equal (fun o => match o with
                             | Some (_, k) => kw_nx k
                             | None => 0%Z
                             end)) in Hs.
    cbn [kw_nx kwargs80] in Hs. lia.
  - intros (g & kw & Hs & Hx & _). rewrite setup_80_float in Hs.
    apply (f_equal (fun o => match o with
                             | Some (_, k) => kw_nx k
                             | None => 0%Z
                             end)) in Hs.
    cbn [kw_nx] in Hs. lia.
  - intros Hc. apply (f_equal snd) in Hc. unfold centre in Hc.
    cbn in Hc. lra.
Qed.

(** ** The momentum-exchange force (C2) *)

(** C2.  With the library's force as the spec describes it, a sampled call
    of the hook computes drag and lift as the x- and y-component of the sum,
    over the links of the first boundary condition, of (post-collision minus
    post-streaming population) times the link's velocity; the coefficients it
    prints are these two scaled by [2 / (prescribed_vel^2 diam)].  Without
    the retained post-collision populations the call fails, and the script
    constructs the solver with [return_fpost] set. *)
Theorem momentum_exchange_drag_lift (GI PP : Type)
    (links : BC (T:=R) GI PP -> list Link) (c : nat -> Z * Z)
    (g : Globals R) (self : Sim (T:=R) GI PP) (b : BC (T:=R) GI PP)
    rho u ts u_prev (fps fpc : Populations R) :
  nth_error (BCs self) 0 = Some b ->
  0.8 * IZR (t_max g) < IZR ts ->
  let drag :=
    big_sum (links b) (fun l =>
      (fpc (link_node l) (link_dir l) - fps (link_node l) (link_dir l))
      * IZR (fst (c (link_dir l)))) in
  let lift :=
    big_sum (links b) (fun l =>
      (fpc (link_node l) (link_dir l) - fps (link_node l) (link_dir l))
      * IZR (snd (c (link_dir l)))) in
  (forall r,
     output_data (spec_momentum_exchange_force links c) g self
       (hook_kwargs true rho u ts u_prev fps fpc) = Some r ->
     printed_cd (snd r)
       = [2 * drag / (prescribed_vel g ^ 2 * IZR (diam g))] /\
     printed_cl (snd r)
       = [2 * lift / (prescribed_vel g ^ 2 * IZR (diam g))]) /\
  output_data (spec_momentum_exchange_force links c) g self
    (hook_kwargs false rho u ts u_prev fps fpc) = None /\
  (forall d g' kw, setup (T:=R) d = Some (g', kw) ->
                   kw_return_fpost kw = true).
Proof.
  intros Hb Hs%sampled_R drag lift. split; [|split].
  - intros r Ho.
    destruct (output_data_sample_inv _ _ _ _ g self
                (hook_kwargs true rho u ts u_prev fps fpc) r Hs Ho)
      as (b' & fps' & fpc' & forces & err0 & cl0 & cd0
          & Hb' & Hps & Hpc & Hf & _ & _ & _ & ->).
    rewrite Hb in Hb'. injection Hb' as <-.
    cbn in Hps, Hpc. injection Hps as <-. injection Hpc as <-.
    unfold spec_momentum_exchange_force in Hf. injection Hf as <-.
    cbn [snd printed_cd printed_cl flat_map app].
    unfold coefficient, Np.sum_axis0, sq. cbn [fst snd].
    rewrite !map_map, !sum_map_R. cbn [fst snd s_mul s_div s_sub of_Z R_scalar].
    fold drag. fold lift. split; do 2 f_equal; ring.
  - unfold output_data. cbn [timestep hook_kwargs]. rewrite Hs.
    destruct (ts =? 0)%Z; cbn [BCs with_max]; rewrite Hb; reflexivity.
  - intros d g' kw Hset. unfold setup, scale_factor in Hset.
    destruct (d =? 0)%Z; [discriminate|].
    cbn [bind s_trunc R_scalar Rtrunc] in Hset. now injection Hset as _ <-.
Qed.

(** *** A body with two links *)

Lemma output_two_links :
  exists r,
    output_data (spec_momentum_exchange_force links_two c_d2q9) g_small
      (with_max sim_ready (Some 0) (Some 0))
      (hook_kwargs true [] u_after 9 u_before f_two f_five) = Some r.
Proof.
  erewrite output_data_sample;
    [ | now apply sampled_small | reflexivity | reflexivity | reflexivity
      | reflexivity | exact error_small | reflexivity | reflexivity ].
  eexists. reflexivity.
Qed.

Lemma momentum_exchange_drag_lift_witness :
  exists r,
    output_data (spec_momentum_exchange_force links_two c_d2q9) g_small
      (with_max sim_ready (Some 0) (Some 0))
      (hook_kwargs true [] u_after 9 u_before f_two f_five) = Some r /\
    printed_cd (snd r) = [6] /\ printed_cl (snd r) = [-3] /\
    output_data (spec_momentum_exchange_force links_two c_d2q9) g_small
      (with_max sim_ready (Some 0) (Some 0))
      (hook_kwargs false [] u_after 9 u_before f_two f_five) = None /\
    kw_return_fpost kwargs80 = true.
Proof.
  destruct output_two_links as [r Hr]. exists r.
  assert (Hs : 0.8 * IZR (t_max g_small) < IZR 9) by (cbn; lra).
  destruct (momentum_exchange_drag_lift unit unit links_two c_d2q9 g_small
              (with_max sim_ready (Some 0) (Some 0))
              (cylinder_bc unit unit g_small sim_small)
              [] u_after 9 u_before f_two f_five eq_refl Hs)
    as (Hforce & Hnone & Hflag).
  destruct (Hforce r Hr) as [Hcd Hcl].
  split; [exact Hr|]. split; [|split; [|split]].
  - rewrite Hcd. f_equal. unfold big_sum, f_five, f_two. cbn. field.
  - rewrite Hcl. f_equal. unfold big_sum, f_five, f_two. cbn. field.
  - exact Hnone.
  - exact (Hflag 80%Z g80 kwargs80 setup_80_R).
Defined.

(** ** The same checks in machine arithmetic

    The model runs on binary64 floats as it stands; the small channel and
    the short run give the values found over the reals. *)

(** The nodes of the cylinder of diameter 2 around [(4, 4)]. *)
Example cylinder_nodes_float :
  option_map (fun s => map (fun b => bc_indices b) (firstn 1 (BCs s)))
             (set_boundary_conditions gf_small simf_small)
  = Some [([3; 4; 4; 4; 5]%Z, [4; 3; 4; 5; 4]%Z)].
Proof. vm_compute. reflexivity. Qed.

(** The inlet velocities of the small channel: the parabola over rows 0 to 6
    with peak 1.5 in the middle row, and no y-component. *)
Example inlet_float :
  option_map (fun s => match nth_error (BCs s) 2 with
                       | Some (Regularized _ _ _ _ vel) => vel
                       | _ => []
                       end)
             (set_boundary_conditions gf_small simf_small)
  = Some [(0, 0); (0x1.aaaaaaaaaaaaap-1, 0); (0x1.5555555555555p+0, 0);
          (0x1.8p+0, 0); (0x1.5555555555555p+0, 0);
          (0x1.aaaaaaaaaaaaap-1, 0); (0, 0)]%float.
Proof. vm_compute. reflexivity. Qed.

(** The run [0, 5, 9] on the channel with its conditions installed: one line
    is printed, with error 0, lift -3 and drag 4; the retained lift stays at
    its initial 0. *)
Example run_small_float :
  (self <- set_boundary_conditions gf_small simf_small ;;
   r <- run_output meff_small gf_small self [kwf_at 0; kwf_at 5; kwf_at 9] ;;
   Some (CL_max (fst r), CD_max (fst r), snd r))
  = Some (Some 0, Some 4,
          [Print 0 (-3) 4; SaveImage 9 [[(0, 1)]]])%float.
Proof. vm_compute. reflexivity. Qed.

(** * Further properties of the script *)

(** ** Index arithmetic of the array helpers *)

Lemma get_in_range {A} (l : list A) (i : Z) :
  (- Z.of_nat (length l) <= i < Z.of_nat (length l))%Z ->
  Np.get l i
  = nth_error l (Z.to_nat (i mod Z.of_nat (length l))).
Proof.
  intros Hi. unfold Np.get.
  destruct (Z.leb_spec 0 i) as [Hpos|Hneg].
  - now rewrite Z.mod_small by lia.
  - destruct (Z.leb_spec (- Z.of_nat (length l)) i); [|lia].
    f_equal. f_equal.
    rewrite <- (Z.mod_add i 1 (Z.of_nat (length l))) by lia.
    rewrite Z.mod_small by lia. lia.
Qed.

Lemma get_out_of_range {A} (l : list A) (i : Z) :
  ~ (- Z.of_nat (length l) <= i < Z.of_nat (length l))%Z ->
  Np.get l i = None.
Proof.
  intros Hi. unfold Np.get.
  destruct (Z.leb_spec 0 i) as [Hpos|Hneg].
  - apply nth_error_None. lia.
  - destruct (Z.leb_spec (- Z.of_nat (length l)) i); [lia|reflexivity].
Qed.

(** Reading the grid at an index pair NumPy accepts: negative indices count
    from the end. *)
Lemma get2_grid_wrap {A} (f : Z * Z -> A) (nx ny i j : Z) :
  (- nx <= i < nx)%Z -> (- ny <= j < ny)%Z ->
  Np.get2 (grid nx ny f) i j = Some (f (i mod nx, j mod ny)%Z).
Proof.
  intros Hi Hj. unfold Np.get2.
  assert (Hlx : Z.of_nat (length (grid nx ny f)) = nx)
    by (rewrite length_grid; lia).
  rewrite get_in_range by lia. rewrite Hlx.
  unfold grid at 1. rewrite nth_error_map.
  rewrite NpFacts.nth_error_range by (apply Z.mod_pos_bound; lia).
  cbn [option_map bind].
  assert (Hly : Z.of_nat (length (map (fun j0 => f ((i mod nx)%Z, j0))
                                     (Np.range ny))) = ny)
    by (rewrite length_map, NpFacts.length_range; lia).
  rewrite get_in_range by lia. rewrite Hly.
  rewrite nth_error_map.
  now rewrite NpFacts.nth_error_range by (apply Z.mod_pos_bound; lia).
Qed.

Lemma get2_grid_out {A} (f : Z * Z -> A) (nx ny i j : Z) :
  (0 < nx)%Z -> (0 < ny)%Z ->
  ~ ((- nx <= i < nx)%Z /\ (- ny <= j < ny)%Z) ->
  Np.get2 (grid nx ny f) i j = None.
Proof.
  intros Hx Hy Hout. unfold Np.get2.
  assert (Hlx : Z.of_nat (length (grid nx ny f)) = nx)
    by (rewrite length_grid; lia).
  destruct (Z_lt_le_dec i (- nx)) as [Hlo|Hlo];
    [rewrite get_out_of_range by lia; reflexivity|].
  destruct (Z_lt_le_dec i nx) as [Hhi|Hhi];
    [|rewrite get_out_of_range by lia; reflexivity].
  rewrite get_in_range by lia. rewrite Hlx.
  unfold grid. rewrite nth_error_map.
  rewrite NpFacts.nth_error_range by (apply Z.mod_pos_bound; lia).
  cbn [option_map bind].
  apply get_out_of_range. rewrite length_map, NpFacts.length_range. lia.
Qed.

Lemma mapM_some_iff {A B} (f : A -> option B) (l : list A) :
  (exists r, mapM f l = Some r) <-> Forall (fun a => exists b, f a = Some b) l.
Proof.
  induction l as [|a l IH]; cbn.
  - split; [constructor|now eexists].
  - split.
    + intros [r Hr].
      destruct (f a) as [b|] eqn:Hb; [cbn in Hr|discriminate].
      destruct (mapM f l) as [bs|]; [|discriminate].
      constructor; [now exists b|]. apply IH. now exists bs.
    + intros Hall. inversion Hall as [|? ? [b Hb] Hrest]; subst.
      apply IH in Hrest as [bs Hbs]. rewrite Hb, Hbs. now eexists.
Qed.

(** The smallest and the largest entry. *)
Lemma fold_min_spec (l : list Z) (x : Z) :
  (fold_left Z.min l x <= x)%Z /\
  (forall y, In y l -> fold_left Z.min l x <= y)%Z /\
  (fold_left Z.min l x = x \/ In (fold_left Z.min l x) l).
Proof.
  revert x. induction l as [|a l IH]; cbn; intros x.
  - split; [lia|]. split; [intros y []|now left].
  - destruct (IH (Z.min x a)) as (H1 & H2 & H3).
    split; [|split].
    + lia.
    + intros y [<-|Hy]; [lia|now apply H2].
    + destruct H3 as [H3|H3]; [|now right; right].
      rewrite H3.
      destruct (Z.min_spec x a) as [[_ Hm]|[_ Hm]]; rewrite Hm;
        [now left|right; now left].
Qed.

Lemma fold_max_spec (l : list Z) (x : Z) :
  (x <= fold_left Z.max l x)%Z /\
  (forall y, In y l -> y <= fold_left Z.max l x)%Z /\
  (fold_left Z.max l x = x \/ In (fold_left Z.max l x) l).
Proof.
  revert x. induction l as [|a l IH]; cbn; intros x.
  - split; [lia|]. split; [intros y []|now left].
  - destruct (IH (Z.max x a)) as (H1 & H2 & H3).
    split; [|split].
    + lia.
    + intros y [<-|Hy]; [lia|now apply H2].
    + destruct H3 as [H3|H3]; [|now right; right].
      rewrite H3.
      destruct (Z.max_spec x a) as [[_ Hm]|[_ Hm]]; rewrite Hm;
        [right; now left|now left].
Qed.

Lemma min_spec (l : list Z) (m : Z) :
  Np.min l = Some m -> In m l /\ forall y, In y l -> (m <= y)%Z.
Proof.
  destruct l as [|x l]; cbn; [discriminate|]. intros Hm. injection Hm as <-.
  destruct (fold_min_spec l x) as (H1 & H2 & H3). split.
  - destruct H3 as [->|H3]; [now left|now right].
  - intros y [<-|Hy]; [assumption|now apply H2].
Qed.

Lemma max_spec (l : list Z) (m : Z) :
  Np.max l = Some m -> In m l /\ forall y, In y l -> (y <= m)%Z.
Proof.
  destruct l as [|x l]; cbn; [discriminate|]. intros Hm. injection Hm as <-.
  destruct (fold_max_spec l x) as (H1 & H2 & H3). split.
  - destruct H3 as [->|H3]; [now left|now right].
  - intros y [<-|Hy]; [assumption|now apply H2].
Qed.

(** ** More on [set_boundary_conditions] *)

Lemma take2_grid_wrap {A} (f : Z * Z -> A) (nx ny : Z) (idx : list (Z * Z)) :
  Forall (fun xy => (- nx <= fst xy < nx)%Z /\ (- ny <= snd xy < ny)%Z) idx ->
  take2 (grid nx ny f) (Np.transpose idx)
  = Some (map (fun xy => f (fst xy mod nx, snd xy mod ny)%Z) idx).
Proof.
  intros Hin. unfold take2. rewrite NpFacts.transpose_combine.
  apply mapM_ext_in. intros [i j] Hij.
  rewrite Forall_forall in Hin. destruct (Hin _ Hij) as [Hi Hj].
  now apply get2_grid_wrap.
Qed.

Lemma take2_grid_some {A} (f : Z * Z -> A) (nx ny : Z) (idx : list (Z * Z)) r :
  (0 < nx)%Z -> (0 < ny)%Z ->
  take2 (grid nx ny f) (Np.transpose idx) = Some r ->
  Forall (fun xy => (- nx <= fst xy < nx)%Z /\ (- ny <= snd xy < ny)%Z) idx.
Proof.
  intros Hx Hy Ht. unfold take2 in Ht.
  rewrite NpFacts.transpose_combine in Ht.
  assert (Hall : exists r, mapM (fun ij => Np.get2 (grid nx ny f) (fst ij) (snd ij))
                             idx = Some r) by now exists r.
  apply mapM_some_iff in Hall. eapply Forall_impl; [|exact Hall].
  intros [i j] [b Hb]. cbn [fst snd] in *.
  destruct (Z_lt_le_dec i (- nx)); [rewrite get2_grid_out in Hb by lia; discriminate|].
  destruct (Z_lt_le_dec i nx); [|rewrite get2_grid_out in Hb by lia; discriminate].
  destruct (Z_lt_le_dec j (- ny)); [rewrite get2_grid_out in Hb by lia; discriminate|].
  destruct (Z_lt_le_dec j ny); [|rewrite get2_grid_out in Hb by lia; discriminate].
  lia.
Qed.


(** X2.  [set_boundary_conditions] only appends: the conditions already in
    the list stay in front, four are added (the cylinder's, then the outflow
    over the ['right'] index set, then two [Regularized] ones), and no other
    attribute of the solver changes. *)
Theorem set_boundary_conditions_frame {T} `{Scalar T} (GI PP : Type)
    (g : Globals T) (self self' : Sim (T:=T) GI PP) :
  set_boundary_conditions g self = Some self' ->
  (exists idx dist i3 v3 i4 v4,
     BCs self' = BCs self ++
       [InterpolatedBounceBackBouzidi idx dist
          (gridInfo self) (precisionPolicy self);
        ExtrapolationOutflow
          (Np.transpose (bb_right (boundingBoxIndices self)))
          (gridInfo self) (precisionPolicy self);
        Regularized i3 (gridInfo self) (precisionPolicy self) "velocity" v3;
        Regularized i4 (gridInfo self) (precisionPolicy self) "velocity" v4]) /\
  nx self' = nx self /\ ny self' = ny self /\
  gridInfo self' = gridInfo self /\
  precisionPolicy self' = precisionPolicy self /\
  boundingBoxIndices self' = boundingBoxIndices self /\
  CL_max self' = CL_max self /\ CD_max self' = CD_max self.
Proof.
  intros Hs.
  apply set_boundary_conditions_inv in Hs
    as (_ & _ & yy & mn & mx & _ & _ & _ & ->).
  split; [|now repeat split].
  do 6 eexists. reflexivity.
Qed.

Lemma set_boundary_conditions_frame_witness :
  exists self' b,
    set_boundary_conditions g_small sim_small = Some self' /\
    length (BCs self') = 4%nat /\
    nth_error (BCs self') 1 = Some b /\
    governs b 7 3 /\ ~ governs b 6 3 /\
    nx self' = 8%Z /\ CL_max self' = None.
Proof.
  destruct sim_small_setup as [self' Hs]. exists self'.
  destruct (set_boundary_conditions_frame unit unit g_small sim_small self' Hs)
    as ((idx & dist & i3 & v3 & i4 & v4 & Hb) & Hx & _ & _ & _ & _ & Hl & _).
  eexists. split; [exact Hs|]. rewrite Hb.
  split; [reflexivity|]. split; [reflexivity|].
  split; [|split; [|split; assumption]].
  - unfold governs. cbn. do 3 right. left. reflexivity.
  - unfold governs. cbn. intros Hg.
    repeat destruct Hg as [Hg|Hg]; try discriminate; auto.
Defined.


(** ** The inlet, row by row *)

(** The rows the inlet nodes read from the reshaped [yy] array. *)
Lemma inlet_rows {T} `{Scalar T} (GI PP : Type)
    (g : Globals T) (self self' : Sim (T:=T) GI PP) :
  set_boundary_conditions g self = Some self' ->
  exists ymin ymax,
    let rows := map (fun xy => (snd xy mod ny self)%Z)
                    (bb_left (boundingBoxIndices self)) in
    Np.min rows = Some ymin /\ Np.max rows = Some ymax /\
    nth_error (BCs self') (length (BCs self) + 2) =
    Some (Regularized (Np.transpose (bb_left (boundingBoxIndices self)))
            (gridInfo self) (precisionPolicy self) "velocity"
            (map (fun y => (poiseuille_profile (of_Z y) (of_Z ymin)
                              (of_Z (ymax - ymin))
                              (of_Z 3 / of_Z 2 * prescribed_vel g)%S,
                            of_Z 0))
                 rows)).
Proof.
  intros Hs.
  apply set_boundary_conditions_inv in Hs
    as (Hx & Hy & yy & ymin & ymax & Ht & Hmin & Hmax & ->).
  pose proof (take2_grid_some _ _ _ _ _ Hx Hy Ht) as Hin.
  rewrite (take2_grid_wrap snd _ _ _ Hin) in Ht. injection Ht as <-.
  exists ymin, ymax. cbn zeta. cbn [snd] in *.
  split; [assumption|]. split; [assumption|].
  cbn [BCs with_BCs]. rewrite nth_error_app2 by lia.
  replace (length (BCs self) + 2 - length (BCs self))%nat with 2%nat by lia.
  cbn [nth_error]. unfold inlet_bc. do 2 f_equal.
  set (rows := map (fun xy => (snd xy mod ny self)%Z)
                   (bb_left (boundingBoxIndices self))).
  set (prof := fun y : Z => poiseuille_profile (of_Z y) (of_Z ymin)
                 (of_Z (ymax - ymin)) (of_Z 3 / of_Z 2 * prescribed_vel g)%S).
  replace (length (bb_left (boundingBoxIndices self)))
    with (length (map prof rows))
    by (unfold rows; now rewrite !length_map).
  now rewrite set_col0_zeros, map_map.
Qed.

(** X3.  The inlet condition prescribes, at each node of the ['left'] index
    set in order, the profile of the node's row as x-velocity and zero as
    y-velocity, where the row of an index pair is its second entry (counted
    from the end when negative), and the profile spans from the lowest to
    the highest of these rows with peak [1.5 * prescribed_vel]. *)
Theorem inlet_velocity_by_row (GI PP : Type)
    (g : Globals R) (self self' : Sim (T:=R) GI PP) :
  set_boundary_conditions g self = Some self' ->
  let rows := map (fun xy => (snd xy mod ny self)%Z)
                  (bb_left (boundingBoxIndices self)) in
  exists ymin ymax,
    In ymin rows /\ In ymax rows /\
    (forall y, In y rows -> (ymin <= y <= ymax)%Z) /\
    nth_error (BCs self') (length (BCs self) + 2) =
    Some (Regularized (Np.transpose (bb_left (boundingBoxIndices self)))
            (gridInfo self) (precisionPolicy self) "velocity"
            (map (fun xy =>
                    (poiseuille_profile (IZR (snd xy mod ny self))
                       (IZR ymin) (IZR (ymax - ymin))
                       (1.5 * prescribed_vel g), 0))
                 (bb_left (boundingBoxIndices self)))).
Proof.
  intros Hs rows.
  destruct (inlet_rows GI PP g self self' Hs)
    as (ymin & ymax & Hmin & Hmax & Hn).
  fold rows in Hmin, Hmax.
  destruct (min_spec _ _ Hmin) as [Himin Hlo].
  destruct (max_spec _ _ Hmax) as [Himax Hhi].
  exists ymin, ymax. split; [assumption|]. split; [assumption|]. split.
  - intros y Hy. split; [now apply Hlo|now apply Hhi].
  - rewrite Hn. do 2 f_equal. rewrite map_map. apply map_ext. intros xy.
    cbn [s_mul s_div of_Z R_scalar]. do 2 f_equal. lra.
Qed.

Lemma inlet_velocity_by_row_witness :
  exists self' vel,
    set_boundary_conditions g_small sim_small = Some self' /\
    nth_error (BCs self') 2 =
      Some (Regularized (Np.transpose (bb_left (box 8 7))) tt tt
              "velocity" vel) /\
    nth_error vel 3 = Some (poiseuille_profile 3 0 6 1.5, 0) /\
    nth_error vel 0 = Some (poiseuille_profile 0 0 6 1.5, 0).
Proof.
  destruct sim_small_setup as [self' Hs]. exists self'.
  destruct (inlet_velocity_by_row unit unit g_small sim_small self' Hs)
    as (ymin & ymax & Himin & Himax & Hb & Hn).
  assert (H0 : (ymin <= 0)%Z) by (apply Hb; cbn; now left).
  assert (H6 : (6 <= ymax)%Z) by (apply Hb; cbn; do 6 right; now left).
  assert (Hmin : ymin = 0%Z).
  { apply in_map_iff in Himin as (xy & <- & _).
    pose proof (Z.mod_pos_bound (snd xy) (ny sim_small) eq_refl). lia. }
  assert (Hmax : ymax = 6%Z).
  { apply in_map_iff in Himax as (xy & <- & _).
    pose proof (Z.mod_pos_bound (snd xy) (ny sim_small) eq_refl).
    change (ny sim_small) with 7%Z in *. lia. }
  subst ymin ymax. eexists. split; [exact Hs|]. split; [exact Hn|].
  replace (1.5 * prescribed_vel g_small) with 1.5 by (cbn; lra).
  rewrite !nth_error_map. split; reflexivity.
Defined.

(** ** The clamp of the profile *)

(** X4.  For a channel of positive width and a positive peak, the profile is
    positive exactly between the two walls, equals the parabola
    [4 umax (y - y0) (y0 + d - y) / d^2] from wall to wall, and is zero from
    the walls outwards, where the parabola is negative. *)
Theorem poiseuille_profile_support (y y0 d umax : R) :
  0 < d -> 0 < umax ->
  (0 < poiseuille_profile y y0 d umax <-> y0 < y < y0 + d) /\
  (y0 <= y <= y0 + d ->
   poiseuille_profile y y0 d umax
   = 4 * umax * (y - y0) * (y0 + d - y) / (d * d)) /\
  (y <= y0 \/ y0 + d <= y -> poiseuille_profile y y0 d umax = 0).
Proof.
  intros Hd Hu. rewrite poiseuille_profile_R.
  set (k := 4 * umax / (d * d)).
  assert (Hk : 0 < k).
  { unfold k. apply Rmult_lt_0_compat; [lra|].
    apply Rinv_0_lt_compat. nra. }
  replace ((y - y0) * d - (y - y0) * (y - y0))
    with ((y - y0) * (y0 + d - y)) by ring.
  assert (Hpar : 4 * umax * (y - y0) * (y0 + d - y) / (d * d)
                 = k * ((y - y0) * (y0 + d - y)))
    by (unfold k; field; lra).
  split; [|split].
  - split.
    + intros Hpos. unfold Rmax in Hpos.
      destruct (Rle_dec 0 (k * ((y - y0) * (y0 + d - y)))); [|lra].
      assert (Hprod : 0 < (y - y0) * (y0 + d - y)) by nra.
      nra.
    + intros [Hlo Hhi].
      assert (Hprod : 0 < (y - y0) * (y0 + d - y))
        by (apply Rmult_lt_0_compat; lra).
      rewrite Rmax_right; nra.
  - intros [Hlo Hhi]. rewrite Hpar.
    assert (Hprod : 0 <= (y - y0) * (y0 + d - y))
      by (apply Rmult_le_pos; lra).
    apply Rmax_right. nra.
  - intros Hout.
    assert (Hprod : (y - y0) * (y0 + d - y) <= 0) by (destruct Hout; nra).
    apply Rmax_left. nra.
Qed.

Lemma poiseuille_profile_support_witness :
  0 < poiseuille_profile 1 0 6 1.5 /\
  poiseuille_profile 1 0 6 1.5 = 4 * 1.5 * (1 - 0) * (0 + 6 - 1) / (6 * 6) /\
  poiseuille_profile 7 0 6 1.5 = 0 /\
  poiseuille_profile (-1) 0 6 1.5 = 0.
Proof.
  assert (H6 : 0 < 6) by lra. assert (Hu : 0 < 1.5) by lra.
  split; [|split; [|split]].
  - apply (proj1 (poiseuille_profile_support 1 0 6 1.5 H6 Hu)). lra.
  - apply (proj1 (proj2 (poiseuille_profile_support 1 0 6 1.5 H6 Hu))). lra.
  - apply (proj2 (proj2 (poiseuille_profile_support 7 0 6 1.5 H6 Hu))). lra.
  - apply (proj2 (proj2 (poiseuille_profile_support (-1) 0 6 1.5 H6 Hu))). lra.
Defined.

(** In machine arithmetic a channel of zero width gives nan at the wall
    itself: the quotient is infinite and the parabola zero. *)
Example poiseuille_float_zero_width :
  PrimFloat.is_nan (poiseuille_profile (T:=float) 3 3 0 0x1.8p+0)%float = true.
Proof. vm_compute. reflexivity. Qed.

Lemma peak_R (g : Globals R) :
  (of_Z 3 / of_Z 2 * prescribed_vel g)%S = 1.5 * prescribed_vel g.
Proof. cbn. lra. Qed.

(** X5.  When the inlet spans at least two rows and the prescribed velocity
    is not negative, every velocity the inlet condition prescribes has an
    x-component between 0 and [1.5 * prescribed_vel] and no y-component, and
    the nodes in the lowest and in the highest inlet row get zero velocity. *)
Theorem inlet_velocity_bounds (GI PP : Type)
    (g : Globals R) (self self' : Sim (T:=R) GI PP) (a b : Z * Z) :
  set_boundary_conditions g self = Some self' ->
  0 <= prescribed_vel g ->
  In a (bb_left (boundingBoxIndices self)) ->
  In b (bb_left (boundingBoxIndices self)) ->
  (snd a mod ny self <> snd b mod ny self)%Z ->
  exists idx vel,
    nth_error (BCs self') (length (BCs self) + 2) =
      Some (Regularized idx (gridInfo self) (precisionPolicy self)
              "velocity" vel) /\
    length vel = length (bb_left (boundingBoxIndices self)) /\
    Forall (fun v => 0 <= fst v <= 1.5 * prescribed_vel g /\ snd v = 0) vel /\
    (forall k xy v,
       nth_error (bb_left (boundingBoxIndices self)) k = Some xy ->
       nth_error vel k = Some v ->
       (forall xy', In xy' (bb_left (boundingBoxIndices self)) ->
                    (snd xy mod ny self <= snd xy' mod ny self)%Z) \/
       (forall xy', In xy' (bb_left (boundingBoxIndices self)) ->
                    (snd xy' mod ny self <= snd xy mod ny self)%Z) ->
       v = (0, 0)).
Proof.
  intros Hs Hpv Ha Hb Hab.
  destruct (inlet_rows GI PP g self self' Hs)
    as (ymin & ymax & Hmin & Hmax & Hn).
  cbn zeta in *.
  destruct (min_spec _ _ Hmin) as [Himin Hlo].
  destruct (max_spec _ _ Hmax) as [Himax Hhi].
  set (row := fun xy : Z * Z => (snd xy mod ny self)%Z) in *.
  assert (Hrow : forall xy, In xy (bb_left (boundingBoxIndices self)) ->
                            (ymin <= row xy <= ymax)%Z).
  { intros xy Hxy. split; [apply Hlo|apply Hhi]; now apply in_map. }
  assert (Hd : (ymin < ymax)%Z).
  { pose proof (Hrow a Ha). pose proof (Hrow b Hb). unfold row in *. lia. }
  assert (HdR : IZR (ymax - ymin) <> 0).
  { apply not_0_IZR. lia. }
  assert (Hu : 0 <= 1.5 * prescribed_vel g) by lra.
  do 2 eexists. split; [exact Hn|]. split; [now rewrite !length_map|].
  split.
  - rewrite map_map. apply Forall_forall. intros v Hv.
    apply in_map_iff in Hv as (xy & <- & Hxy). cbn [fst snd].
    rewrite peak_R. change (@of_Z R R_scalar) with IZR.
    rewrite poiseuille_profile_R. split; [|reflexivity]. split.
    + apply Rmax_l.
    + apply Rmax_lub; [assumption|]. now apply parabola_le.
  - intros k xy v Hk Hv Hext.
    rewrite map_map, nth_error_map, Hk in Hv. cbn [option_map] in Hv.
    injection Hv as <-. f_equal.
    assert (Hin : In xy (bb_left (boundingBoxIndices self)))
      by (eapply nth_error_In; eassumption).
    assert (Hcase : row xy = ymin \/ row xy = ymax).
    { destruct Hext as [Hext|Hext].
      - left. apply in_map_iff in Himin as (xy' & <- & Hxy').
        pose proof (Hext xy' Hxy'). pose proof (Hrow xy Hin).
        fold (row xy') in *. fold (row xy) in *. lia.
      - right. apply in_map_iff in Himax as (xy' & <- & Hxy').
        pose proof (Hext xy' Hxy'). pose proof (Hrow xy Hin).
        fold (row xy') in *. fold (row xy) in *. lia. }
    rewrite minus_IZR.
    destruct Hcase as [-> | ->];
      match goal with
      | |- Rmax 0 (_ * ?p) = 0 => replace p with 0 by ring
      end;
      rewrite Rmult_0_r; apply Rmax_left; lra.
Qed.

Lemma inlet_velocity_bounds_witness :
  exists self' idx vel,
    set_boundary_conditions g_small sim_small = Some self' /\
    nth_error (BCs self') 2 = Some (Regularized idx tt tt "velocity" vel) /\
    length vel = 7%nat /\
    Forall (fun v => 0 <= fst v <= 1.5 /\ snd v = 0) vel /\
    nth_error vel 0 = Some (0, 0) /\ nth_error vel 6 = Some (0, 0).
Proof.
  destruct sim_small_setup as [self' Hs]. exists self'.
  assert (Ha : In (0, 0)%Z (bb_left (boundingBoxIndices sim_small)))
    by (cbn; now left).
  assert (Hb : In (0, 6)%Z (bb_left (boundingBoxIndices sim_small)))
    by (cbn; do 6 right; now left).
  assert (Hpv : 0 <= prescribed_vel g_small) by (cbn; lra).
  destruct (inlet_velocity_bounds unit unit g_small sim_small self'
              (0, 0)%Z (0, 6)%Z Hs Hpv Ha Hb ltac:(cbn; lia))
    as (idx & vel & Hn & Hlen & Hall & Hext).
  exists idx, vel. split; [exact Hs|]. split; [exact Hn|].
  split; [exact Hlen|]. split.
  { eapply Forall_impl; [|exact Hall]. intros v [[H1 H2] H3].
    cbn [prescribed_vel g_small] in H2. repeat split; lra. }
  assert (Hrows : forall xy', In xy' (bb_left (boundingBoxIndices sim_small)) ->
                    (0 <= snd xy' mod ny sim_small <= 6)%Z).
  { intros xy' _. pose proof (Z.mod_pos_bound (snd xy') (ny sim_small) eq_refl).
    change (ny sim_small) with 7%Z in *. lia. }
  split.
  - destruct (nth_error vel 0) as [v|] eqn:Hv.
    + f_equal. apply (Hext 0%nat (0, 0)%Z v eq_refl Hv). left.
      intros xy' Hxy'. apply (Hrows xy' Hxy').
    + apply nth_error_None in Hv. rewrite Hlen in Hv.
      vm_compute in Hv. lia.
  - destruct (nth_error vel 6) as [v|] eqn:Hv.
    + f_equal. apply (Hext 6%nat (0, 6)%Z v eq_refl Hv). right.
      intros xy' Hxy'. apply (Hrows xy' Hxy').
    + apply nth_error_None in Hv. rewrite Hlen in Hv.
      vm_compute in Hv. lia.
Defined.

(** ** The cylinder's index set *)

Lemma NoDup_map_inj {A B} (f : A -> B) (l : list A) :
  (forall x y, f x = f y -> x = y) -> NoDup l -> NoDup (map f l).
Proof.
  intros Hinj. induction 1 as [|x l Hx _ IH]; cbn; constructor; [|assumption].
  intros Hin. apply in_map_iff in Hin as (y & Hy & Hyl).
  apply Hinj in Hy. now subst.
Qed.

Lemma NoDup_range (n : Z) : NoDup (Np.range n).
Proof.
  unfold Np.range. apply NoDup_map_inj; [apply Nat2Z.inj|apply seq_NoDup].
Qed.

Lemma NoDup_coord (nx ny : Z) : NoDup (coord nx ny).
Proof.
  unfold coord.
  pose proof (NoDup_range nx) as Hx. induction Hx as [|i l Hi _ IH]; cbn.
  - constructor.
  - apply NoDup_app.
    + apply NoDup_map_inj; [|apply NoDup_range].
      intros a b Hab. now injection Hab.
    + exact IH.
    + intros [a b] Ha Hb.
      apply in_map_iff in Ha as (j & Hj & _). injection Hj as <- <-.
      apply in_flat_map in Hb as (i' & Hi' & Hb).
      apply in_map_iff in Hb as (j' & Hj' & _). injection Hj' as <- _.
      contradiction.
Qed.

(** X6.  The index arrays handed to the cylinder's condition have one
    length, list each governed node once, and list only nodes of the grid;
    the implicit distance array handed over with them has shape
    [(nx, ny)]. *)
Theorem cylinder_bc_well_formed {T} `{Scalar T} (GI PP : Type)
    (g : Globals T) (self self' : Sim (T:=T) GI PP) :
  set_boundary_conditions g self = Some self' ->
  exists xs ys dist,
    nth_error (BCs self') (length (BCs self))
      = Some (InterpolatedBounceBackBouzidi (xs, ys) dist
                (gridInfo self) (precisionPolicy self)) /\
    length xs = length ys /\
    NoDup (combine xs ys) /\
    (forall i j, In (i, j) (combine xs ys) ->
                 (0 <= i < nx self)%Z /\ (0 <= j < ny self)%Z) /\
    length dist = Z.to_nat (nx self) /\
    Forall (fun row => length row = Z.to_nat (ny self)) dist.
Proof.
  intros Hs.
  apply set_boundary_conditions_inv in Hs
    as (_ & _ & yy & mn & mx & _ & _ & _ & ->).
  do 3 eexists. split; [|split; [|split; [|split; [|split]]]].
  - cbn [BCs with_BCs]. rewrite nth_error_app2 by lia.
    rewrite Nat.sub_diag. reflexivity.
  - now rewrite !length_map.
  - rewrite NpFacts.combine_fst_snd. apply NoDup_filter, NoDup_coord.
  - intros i j Hij. rewrite NpFacts.combine_fst_snd in Hij.
    apply filter_In in Hij as [Hij _]. now apply in_coord.
  - apply length_grid.
  - apply grid_rows.
Qed.

Lemma cylinder_bc_well_formed_witness :
  exists self' xs ys dist,
    set_boundary_conditions g_small sim_small = Some self' /\
    nth_error (BCs self') 0
      = Some (InterpolatedBounceBackBouzidi (xs, ys) dist tt tt) /\
    length xs = length ys /\ NoDup (combine xs ys) /\
    length dist = 8%nat /\ Forall (fun row => length row = 7%nat) dist.
Proof.
  destruct sim_small_setup as [self' Hs]. exists self'.
  destruct (cylinder_bc_well_formed unit unit g_small sim_small self' Hs)
    as (xs & ys & dist & Hn & Hl & Hnd & _ & Hd & Hrows).
  exists xs, ys, dist. split; [exact Hs|]. split; [exact Hn|].
  split; [exact Hl|]. split; [exact Hnd|]. split; [exact Hd|exact Hrows].
Defined.

(** A point of a disc around the origin lies in the square around it. *)
Lemma disc_in_square (a b r : R) :
  0 < r -> a * a + b * b <= r * r -> - r <= a <= r /\ - r <= b <= r.
Proof.
  intros Hr Hd.
  assert (Ha : 0 <= a * a) by nra. assert (Hb : 0 <= b * b) by nra.
  assert (Hside : forall x, x * x <= r * r -> - r <= x <= r).
  { intros x Hx. split; apply Rnot_lt_le; intros Hlt.
    - assert (0 < (- r - x) * (r - x)) by (apply Rmult_lt_0_compat; lra).
      nra.
    - assert (0 < (x - r) * (x + r)) by (apply Rmult_lt_0_compat; lra).
      nra. }
  split; apply Hside; lra.
Qed.

(** X7.  When the grid reaches beyond two and a half diameters in both
    directions with a node to spare ([5 diam + 4 <= 2 nx] and the same for
    [ny], as in the documented set-up), the array bounds cut nothing off the
    cylinder: a pair of integers is a governed node exactly when it lies in
    the disc, and no governed node lies in the first or last row or column
    of the grid. *)
Theorem cylinder_not_clipped (GI PP : Type)
    (g : Globals R) (self self' : Sim (T:=R) GI PP) :
  set_boundary_conditions g self = Some self' ->
  (0 < diam g)%Z ->
  (5 * diam g + 4 <= 2 * nx self)%Z ->
  (5 * diam g + 4 <= 2 * ny self)%Z ->
  exists b,
    nth_error (BCs self') (length (BCs self)) = Some b /\
    forall i j : Z,
      (governs b i j <->
       (IZR i - 2 * IZR (diam g)) ^ 2 + (IZR j - 2 * IZR (diam g)) ^ 2
       <= (IZR (diam g) / 2) ^ 2) /\
      (governs b i j ->
       (1 <= i <= nx self - 2)%Z /\ (1 <= j <= ny self - 2)%Z).
Proof.
  intros Hs Hd Hnx Hny.
  apply set_boundary_conditions_inv in Hs
    as (_ & _ & yy & mn & mx & _ & _ & _ & ->).
  eexists. split.
  { cbn [BCs with_BCs]. rewrite nth_error_app2 by lia.
    rewrite Nat.sub_diag. reflexivity. }
  intros i j.
  assert (Hbox : (IZR i - 2 * IZR (diam g)) ^ 2
                 + (IZR j - 2 * IZR (diam g)) ^ 2
                 <= (IZR (diam g) / 2) ^ 2 ->
                 (3 * diam g <= 2 * i <= 5 * diam g)%Z /\
                 (3 * diam g <= 2 * j <= 5 * diam g)%Z).
  { intros Hdisc. apply IZR_lt in Hd.
    destruct (disc_in_square (IZR i - 2 * IZR (diam g))
                (IZR j - 2 * IZR (diam g)) (IZR (diam g) / 2))
      as [[Hi1 Hi2] [Hj1 Hj2]]; [lra|cbn [pow] in Hdisc; lra|].
    repeat split; apply le_IZR; rewrite !mult_IZR; lra. }
  assert (Hiff : governs (cylinder_bc GI PP g self) i j <->
                 (IZR i - 2 * IZR (diam g)) ^ 2
                 + (IZR j - 2 * IZR (diam g)) ^ 2
                 <= (IZR (diam g) / 2) ^ 2).
  { unfold governs, cylinder_bc. cbn [bc_indices].
    rewrite NpFacts.transpose_combine, filter_In, in_coord.
    cbn [s_leb R_scalar]. rewrite Rleb_true, node_dist2_R, radius2_R.
    split; [tauto|]. intros Hdisc. split; [|assumption].
    destruct (Hbox Hdisc). lia. }
  split; [exact Hiff|].
  intros Hgov. apply Hiff in Hgov. destruct (Hbox Hgov). lia.
Qed.

Lemma cylinder_not_clipped_witness :
  exists self' b,
    set_boundary_conditions g_small sim_small = Some self' /\
    nth_error (BCs self') 0 = Some b /\
    governs b 4 5 /\ ~ governs b 5 5 /\ ~ governs b 4 (-3) /\
    (forall i j, governs b i j -> (1 <= i <= 6)%Z /\ (1 <= j <= 5)%Z).
Proof.
  destruct sim_small_setup as [self' Hs]. exists self'.
  destruct (cylinder_not_clipped unit unit g_small sim_small self' Hs
              ltac:(cbn; lia) ltac:(cbn; lia) ltac:(cbn; lia))
    as (b & Hn & Hb).
  exists b. split; [exact Hs|]. split; [exact Hn|].
  split; [|split; [|split]].
  - apply (proj1 (Hb 4%Z 5%Z)). cbn. lra.
  - intros Hg. apply (proj1 (Hb 5%Z 5%Z)) in Hg. cbn in Hg. lra.
  - intros Hg. apply (proj1 (Hb 4%Z (-3)%Z)) in Hg. cbn in Hg. lra.
  - intros i j Hg. exact (proj2 (Hb i j) Hg).
Defined.

(** ** When the hook returns *)






(** ** What a run prints and saves *)

Lemma saved_steps_app {T} (e1 e2 : list (Event (T:=T))) :
  saved_steps (e1 ++ e2) = saved_steps e1 ++ saved_steps e2.
Proof. apply flat_map_app. Qed.

Lemma printed_err_app {T} (e1 e2 : list (Event (T:=T))) :
  printed_err (e1 ++ e2) = printed_err e1 ++ printed_err e2.
Proof. apply flat_map_app. Qed.

Lemma printed_cl_app' {T} (e1 e2 : list (Event (T:=T))) :
  printed_cl (e1 ++ e2) = printed_cl e1 ++ printed_cl e2.
Proof. apply flat_map_app. Qed.

Lemma printed_cd_app' {T} (e1 e2 : list (Event (T:=T))) :
  printed_cd (e1 ++ e2) = printed_cd e1 ++ printed_cd e2.
Proof. apply flat_map_app. Qed.

(** X9.  In a run that returns, the steps whose image was saved are, in
    order, exactly the steps of the calls with [timestep > 0.8 * t_max], and
    each of them printed one line: there are as many errors, lift and drag
    coefficients as saved images. *)
Theorem run_output_events {T} `{Scalar T} (GI PP Pop : Type)
    (mef : BC (T:=T) GI PP -> Pop -> Pop -> option (list (T * T)))
    (g : Globals T) (calls : list (Kwargs (T:=T) Pop)) :
  forall (self : Sim (T:=T) GI PP) r,
    run_output mef g self calls = Some r ->
    saved_steps (snd r) = filter (sampled g) (map (fun kw => timestep kw) calls) /\
    length (printed_err (snd r)) = length (saved_steps (snd r)) /\
    length (printed_cl (snd r)) = length (saved_steps (snd r)) /\
    length (printed_cd (snd r)) = length (saved_steps (snd r)).
Proof.
  induction calls as [|kw calls IH]; cbn [run_output]; intros self r Hr.
  - injection Hr as <-. now repeat split.
  - destruct (output_data mef g self kw) as [r1|] eqn:H1;
      [cbn [bind] in Hr|discriminate].
    destruct (run_output mef g (fst r1) calls) as [r2|] eqn:H2;
      [cbn [bind] in Hr|discriminate].
    injection Hr as <-. cbn [fst snd map filter].
    destruct (IH _ _ H2) as (Hsv & He & Hl & Hd).
    rewrite saved_steps_app, printed_err_app, printed_cl_app',
      printed_cd_app', !length_app, He, Hl, Hd, Hsv.
    destruct (sampled g (timestep kw)) eqn:Hs.
    + destruct (output_data_sample_inv _ _ _ _ _ _ _ _ Hs H1)
        as (c & fps & fpc & forces & err0 & cl0 & cd0
          & _ & _ & _ & _ & _ & _ & _ & ->).
      now repeat split.
    + rewrite output_data_skip in H1 by assumption. injection H1 as <-.
      now repeat split.
Qed.

Lemma run_output_events_witness :
  exists r,
    run_output mef_small g_small sim_ready [kw_at 0; kw_at 5; kw_at 9] = Some r /\
    saved_steps (snd r) = [9%Z] /\ length (printed_err (snd r)) = 1%nat.
Proof.
  eexists. split; [exact run_small|].
  destruct (run_output_events unit unit unit mef_small g_small _ _ _ run_small)
    as (Hsv & He & _ & _).
  rewrite He, Hsv. cbn [map filter timestep kw_at].
  rewrite (not_sampled_small 0), (not_sampled_small 5), (sampled_small 9)
    by lia.
  split; reflexivity.
Defined.

(** ** The retained maxima as bounds *)

Lemma fold_max_bound (l : list R) (a : R) :
  a <= fold_left Rmax l a /\
  (forall x, In x l -> x <= fold_left Rmax l a) /\
  (fold_left Rmax l a = a \/ In (fold_left Rmax l a) l).
Proof.
  revert a. induction l as [|x l IH]; cbn; intros a.
  - split; [lra|]. split; [intros y []|now left].
  - destruct (IH (Rmax a x)) as (H1 & H2 & H3).
    pose proof (Rmax_l a x). pose proof (Rmax_r a x).
    split; [lra|]. split.
    + intros y [<-|Hy]; [lra|now apply H2].
    + destruct H3 as [H3|H3]; [|now right; right].
      rewrite H3. unfold Rmax. destruct (Rle_dec a x); [right|]; now left.
Qed.

(** X10.  Over a run that starts at timestep 0 and does not return to it,
    the retained lift is at least every lift coefficient the run printed and
    is either one of them or the initial 0.0; the same holds for the drag.
    A call at a later timestep never lowers either value. *)
Theorem retained_maxima_bound (GI PP Pop : Type)
    (mef : BC (T:=R) GI PP -> Pop -> Pop -> option (list (R * R)))
    (g : Globals R) :
  (forall (self : Sim (T:=R) GI PP) (kw0 : Kwargs (T:=R) Pop) rest r,
     timestep kw0 = 0%Z ->
     Forall (fun kw => timestep kw <> 0%Z) rest ->
     run_output mef g self (kw0 :: rest) = Some r ->
     exists cl cd,
       CL_max (fst r) = Some cl /\ CD_max (fst r) = Some cd /\
       (forall x, In x (printed_cl (snd r)) -> x <= cl) /\
       (forall x, In x (printed_cd (snd r)) -> x <= cd) /\
       (cl = 0 \/ In cl (printed_cl (snd r))) /\
       (cd = 0 \/ In cd (printed_cd (snd r)))) /\
  (forall (self : Sim (T:=R) GI PP) (kw : Kwargs (T:=R) Pop) r cl cd,
     timestep kw <> 0%Z ->
     CL_max self = Some cl -> CD_max self = Some cd ->
     output_data mef g self kw = Some r ->
     exists cl' cd',
       CL_max (fst r) = Some cl' /\ CD_max (fst r) = Some cd' /\
       cl <= cl' /\ cd <= cd').
Proof.
  split.
  - intros self kw0 rest r H0 Hnz Hr. cbn [run_output] in Hr.
    destruct (output_data mef g self kw0) as [r1|] eqn:H1;
      [cbn [bind] in Hr|discriminate].
    destruct (run_output mef g (fst r1) rest) as [r2|] eqn:H2;
      [cbn [bind] in Hr|discriminate].
    injection Hr as <-. cbn [fst snd].
    assert (Hcl : CL_max (reset_at_zero GI PP self (timestep kw0)) = Some 0)
      by (rewrite H0; reflexivity).
    assert (Hcd : CD_max (reset_at_zero GI PP self (timestep kw0)) = Some 0)
      by (rewrite H0; reflexivity).
    destruct (output_data_max _ _ _ _ _ _ _ _ _ _ H1 Hcl Hcd) as [Hcl1 Hcd1].
    destruct (run_output_max _ _ _ _ _ _ _ _ _ _ Hnz Hcl1 Hcd1 H2)
      as [Hcl2 Hcd2].
    rewrite <- fold_left_app, <- printed_cl_app in Hcl2.
    rewrite <- fold_left_app, <- printed_cd_app in Hcd2.
    destruct (fold_max_bound (printed_cl (snd r1 ++ snd r2)) 0)
      as (_ & Hlb & Hlin).
    destruct (fold_max_bound (printed_cd (snd r1 ++ snd r2)) 0)
      as (_ & Hdb & Hdin).
    exists (fold_left Rmax (printed_cl (snd r1 ++ snd r2)) 0),
           (fold_left Rmax (printed_cd (snd r1 ++ snd r2)) 0).
    split; [exact Hcl2|]. split; [exact Hcd2|].
    repeat split; assumption.
  - intros self kw r cl cd Hnz Hcl Hcd Ho.
    rewrite <- (reset_nonzero _ _ self _ Hnz) in Hcl, Hcd.
    destruct (output_data_max _ _ _ _ _ _ _ _ _ _ Ho Hcl Hcd) as [Hcl1 Hcd1].
    exists (fold_left Rmax (printed_cl (snd r)) cl),
           (fold_left Rmax (printed_cd (snd r)) cd).
    split; [exact Hcl1|]. split; [exact Hcd1|].
    split; [exact (proj1 (fold_max_bound _ _))
           |exact (proj1 (fold_max_bound _ _))].
Qed.

Lemma retained_maxima_bound_witness :
  exists r cl cd,
    run_output mef_small g_small sim_ready [kw_at 0; kw_at 5; kw_at 9] = Some r /\
    CL_max (fst r) = Some cl /\ CD_max (fst r) = Some cd /\
    -3 <= cl /\ 4 <= cd /\ (cl = 0 \/ cl = -3) /\ (cd = 0 \/ cd = 4).
Proof.
  destruct (proj1 (retained_maxima_bound unit unit unit mef_small g_small)
              sim_ready (kw_at 0) [kw_at 5; kw_at 9] _ eq_refl
              ltac:(repeat constructor; discriminate) run_small)
    as (cl & cd & Hcl & Hcd & Hlb & Hdb & Hlin & Hdin).
  cbn [fst snd printed_cl printed_cd flat_map app In] in *.
  eexists. exists cl, cd. split; [exact run_small|].
  split; [exact Hcl|]. split; [exact Hcd|].
  assert (H3 : -3 <= cl) by (apply Hlb; now left).
  assert (H4 : 4 <= cd) by (apply Hdb; now left).
  split; [exact H3|]. split; [exact H4|]. split.
  - destruct Hlin as [?|[Hc|[]]]; [now left|right; lra].
  - destruct Hdin as [?|[Hc|[]]]; [now left|right; lra].
Defined.

(** ** The run has to start at timestep 0 *)

Section ZeroStep.
Context {T : Type} `{Scalar T}.
Variables GridInfo PrecisionPolicy Pop : Type.
Variable momentum_exchange_force :
  BC (T:=T) GridInfo PrecisionPolicy -> Pop -> Pop -> option (list (T * T)).
Variable g : Globals T.

(** A call at another timestep cannot create the maxima. *)
Lemma output_data_unset (self : Sim (T:=T) GridInfo PrecisionPolicy)
    (kw : Kwargs (T:=T) Pop) r :
  timestep kw <> 0%Z -> CL_max self = None ->
  output_data momentum_exchange_force g self kw = Some r ->
  CL_max (fst r) = None /\ sampled g (timestep kw) = false.
Proof.
  intros Hnz Hcl Ho.
  assert (Hr : reset_at_zero GridInfo PrecisionPolicy self (timestep kw) = self).
  { unfold reset_at_zero. now destruct (Z.eqb_spec (timestep kw) 0). }
  destruct (sampled g (timestep kw)) eqn:Hs.
  - destruct (output_data_sample_inv _ _ _ _ _ _ _ _ Hs Ho)
      as (c & fps & fpc & forces & err0 & cl0 & cd0
          & _ & _ & _ & _ & _ & Hcl0 & _ & _).
    rewrite Hr, Hcl in Hcl0. discriminate.
  - rewrite output_data_skip in Ho by assumption. injection Ho as <-.
    rewrite Hr. now split.
Qed.

Lemma run_output_unset (calls : list (Kwargs (T:=T) Pop)) :
  forall (self : Sim (T:=T) GridInfo PrecisionPolicy) r,
    Forall (fun kw => timestep kw <> 0%Z) calls -> CL_max self = None ->
    run_output momentum_exchange_force g self calls = Some r ->
    CL_max (fst r) = None /\
    Forall (fun kw => sampled g (timestep kw) = false) calls.
Proof.
  induction calls as [|kw calls IH]; cbn [run_output]; intros self r Hnz Hcl Hr.
  - injection Hr as <-. now split.
  - inversion Hnz as [|? ? Hkw Hrest]; subst.
    destruct (output_data momentum_exchange_force g self kw) as [r1|] eqn:H1;
      [cbn [bind] in Hr|discriminate].
    destruct (run_output momentum_exchange_force g (fst r1) calls)
      as [r2|] eqn:H2; [cbn [bind] in Hr|discriminate].
    injection Hr as <-. cbn [fst].
    destruct (output_data_unset _ _ _ Hkw Hcl H1) as [Hcl1 Hs].
    destruct (IH _ _ Hrest Hcl1 H2) as [Hcl2 Hall].
    split; [assumption|now constructor].
Qed.

End ZeroStep.

(** X11.  On a fresh solver the maxima exist only after a call at
    timestep 0: a run without such a call that returns leaves [CL_max]
    unset (so that [main] cannot read it) and contains no sampled call, and
    a run whose first sampled call comes before any call at timestep 0 does
    not return. *)
Theorem run_needs_timestep_zero {T} `{Scalar T} (GI PP Pop : Type)
    (mef : BC (T:=T) GI PP -> Pop -> Pop -> option (list (T * T)))
    (g : Globals T) (self : Sim (T:=T) GI PP) :
  CL_max self = None ->
  (forall calls r,
     Forall (fun kw => timestep kw <> 0%Z) calls ->
     run_output mef g self calls = Some r ->
     CL_max (fst r) = None /\ snd r = [] /\
     Forall (fun kw => sampled g (timestep kw) = false) calls) /\
  (forall pre kw post,
     Forall (fun kw => timestep kw <> 0%Z) pre ->
     timestep kw <> 0%Z -> sampled g (timestep kw) = true ->
     run_output mef g self (pre ++ kw :: post) = None).
Proof.
  intros Hcl. split.
  - intros calls r Hnz Hr.
    destruct (run_output_unset _ _ _ mef g calls self r Hnz Hcl Hr)
      as [Hcl' Hall].
    split; [assumption|]. split; [|assumption].
    clear Hcl Hcl' Hnz. revert self r Hr.
    induction Hall as [|kw calls Hs _ IH]; cbn [run_output]; intros self r Hr.
    + now injection Hr as <-.
    + rewrite output_data_skip in Hr by assumption. cbn [bind fst snd] in Hr.
      destruct (run_output mef g _ calls) as [r2|] eqn:H2;
        [cbn [bind] in Hr|discriminate].
      injection Hr as <-. cbn [snd app]. exact (IH _ _ H2).
  - intros pre kw post Hnz Hkw Hs.
    destruct (run_output mef g self (pre ++ kw :: post)) as [r|] eqn:Hr;
      [|reflexivity].
    assert (Hall : Forall (fun kw => timestep kw <> 0%Z) (pre ++ [kw]))
      by (apply Forall_app; split; [assumption|now constructor]).
    exfalso. clear Hnz.
    revert self Hcl r Hr.
    induction pre as [|k pre IH]; cbn [app run_output]; intros self Hcl r Hr.
    + destruct (output_data mef g self kw) as [r1|] eqn:H1;
        [|discriminate].
      destruct (output_data_unset _ _ _ mef g self kw r1 Hkw Hcl H1)
        as [_ Hns]. congruence.
    + inversion Hall as [|? ? Hk Hrest]; subst.
      destruct (output_data mef g self k) as [r1|] eqn:H1;
        [cbn [bind] in Hr|discriminate].
      destruct (run_output mef g (fst r1) (pre ++ kw :: post)) as [r2|] eqn:H2;
        [|discriminate].
      destruct (output_data_unset _ _ _ mef g self k r1 Hk Hcl H1)
        as [Hcl1 _].
      exact (IH Hrest (fst r1) Hcl1 r2 H2).
Qed.

Lemma run_quiet_small :
  run_output mef_small g_small sim_ready [kw_at 5; kw_at 7]
  = Some (sim_ready, []).
Proof.
  cbn [run_output].
  rewrite output_data_skip by now apply not_sampled_small.
  cbn [bind fst snd].
  rewrite output_data_skip by now apply not_sampled_small.
  reflexivity.
Qed.

Lemma run_needs_timestep_zero_witness :
  (exists r,
     run_output mef_small g_small sim_ready [kw_at 5; kw_at 7] = Some r /\
     CL_max (fst r) = None /\ snd r = []) /\
  run_output mef_small g_small sim_ready [kw_at 5; kw_at 9; kw_at 0] = None.
Proof.
  destruct (run_needs_timestep_zero unit unit unit mef_small g_small
              sim_ready eq_refl) as [Hquiet Hfail].
  split.
  - eexists. split; [exact run_quiet_small|].
    assert (Hnz : Forall (fun kw : Kwargs (T:=R) unit => timestep kw <> 0%Z)
                    [kw_at 5; kw_at 7])
      by (repeat constructor; discriminate).
    destruct (Hquiet [kw_at 5; kw_at 7] _ Hnz run_quiet_small)
      as (Hcl & Hev & _).
    now split.
  - exact (Hfail [kw_at 5] (kw_at 9) [kw_at 0]
             ltac:(repeat constructor; discriminate) ltac:(discriminate)
             (sampled_small 9 ltac:(lia))).
Defined.

(** ** The printed error as a measure of change *)

Lemma sum_nonneg (l : list R) : Forall (fun x => 0 <= x) l -> 0 <= Np.sum l.
Proof.
  rewrite sum_R. induction 1 as [|x l Hx _ IH]; cbn; lra.
Qed.

Lemma sum_zero (l : list R) : Forall (fun x => x = 0) l -> Np.sum l = 0.
Proof.
  rewrite sum_R. induction 1 as [|x l Hx _ IH]; cbn; lra.
Qed.

Lemma bdim_comm (m n : nat) : Np.bdim m n = Np.bdim n m.
Proof.
  unfold Np.bdim.
  destruct (Nat.eqb_spec m n) as [->|Hmn].
  - now rewrite Nat.eqb_refl.
  - destruct (Nat.eqb_spec n m) as [->|_]; [contradiction|].
    destruct (Nat.eqb_spec m 1) as [->|Hm], (Nat.eqb_spec n 1) as [->|Hn];
      try reflexivity; try contradiction.
Qed.

Lemma combine_swap {A B} (a : list A) (b : list B) :
  combine b a = map (fun p => (snd p, fst p)) (combine a b).
Proof.
  revert b. induction a as [|x a IH]; intros [|y b]; cbn; try reflexivity.
  now rewrite IH.
Qed.

Lemma combine_diag {A} (a : list A) : combine a a = map (fun x => (x, x)) a.
Proof. induction a as [|x a IH]; cbn; [reflexivity|now rewrite IH]. Qed.

(** The entrywise differences of two arrays of one shape. *)
Lemma entrywise_nonneg (a b : list (list R)) :
  0 <= Np.sum2 (map (fun rs => map (fun xy => Rabs (fst xy - snd xy))
                                   (combine (fst rs) (snd rs)))
                    (combine a b)).
Proof.
  unfold Np.sum2. apply sum_nonneg, Forall_forall. intros x Hx.
  apply in_concat in Hx as (row & Hrow & Hx).
  apply in_map_iff in Hrow as (rs & <- & _).
  apply in_map_iff in Hx as (xy & <- & _). apply Rabs_pos.
Qed.

Lemma entrywise_diag (a : list (list R)) :
  Np.sum2 (map (fun rs => map (fun xy => Rabs (fst xy - snd xy))
                              (combine (fst rs) (snd rs)))
               (combine a a)) = 0.
Proof.
  unfold Np.sum2. apply sum_zero, Forall_forall. intros x Hx.
  apply in_concat in Hx as (row & Hrow & Hx).
  rewrite combine_diag, map_map in Hrow.
  apply in_map_iff in Hrow as (r & <- & _). cbn [fst snd] in Hx.
  rewrite combine_diag, map_map in Hx.
  apply in_map_iff in Hx as (v & <- & _). cbn [fst snd].
  now rewrite Rminus_diag, Rabs_R0.
Qed.

Lemma entrywise_swap (a b : list (list R)) :
  map (fun rs => map (fun xy => Rabs (fst xy - snd xy))
                     (combine (fst rs) (snd rs)))
      (combine a b)
  = map (fun rs => map (fun xy => Rabs (fst xy - snd xy))
                       (combine (fst rs) (snd rs)))
        (combine b a).
Proof.
  rewrite (combine_swap a b), !map_map.
  apply map_ext. intros [r1 r2]. cbn [fst snd].
  rewrite (combine_swap r1 r2), map_map. apply map_ext.
  intros [x y]. cbn [fst snd]. apply Rabs_minus_sym.
Qed.

Lemma abs_diff_diag (n : list (list R)) :
  exists d, Np.abs_diff n n = Some d /\ Np.sum2 d = 0.
Proof.
  unfold Np.abs_diff. rewrite !bdim_refl. cbn [bind].
  eexists. split; [reflexivity|]. apply entrywise_diag.
Qed.

(** X12.  The error the hook prints is never negative, is zero when the two
    fields handed to it have the same speed at every node (in particular
    when they are equal), and does not depend on which of the two fields is
    the earlier one: exchanged, they broadcast and fail alike and give the
    same number. *)
Theorem error_measure (a b : list (list (R * R))) :
  (forall e, error a b = Some e -> 0 <= e) /\
  (Np.norm_axis2 a = Np.norm_axis2 b -> error a b = Some 0) /\
  error a a = Some 0 /\
  error a b = error b a.
Proof.
  split; [|split; [|split]].
  - unfold error, Np.abs_diff. intros e He.
    destruct (Np.bdim _ _) as [rows|]; [cbn [bind] in He|discriminate].
    destruct (Np.bdim _ _) as [cols|]; [cbn [bind] in He|discriminate].
    injection He as <-. apply entrywise_nonneg.
  - intros Heq. unfold error. rewrite Heq.
    destruct (abs_diff_diag (Np.norm_axis2 b)) as (d & -> & Hd).
    cbn [bind]. now rewrite Hd.
  - unfold error.
    destruct (abs_diff_diag (Np.norm_axis2 a)) as (d & -> & Hd).
    cbn [bind]. now rewrite Hd.
  - unfold error, Np.abs_diff.
    rewrite (bdim_comm (fst (Np.shape2 (Np.norm_axis2 b)))),
            (bdim_comm (snd (Np.shape2 (Np.norm_axis2 b)))).
    destruct (Np.bdim _ _) as [rows|]; [cbn [bind]|reflexivity].
    destruct (Np.bdim _ _) as [cols|]; [cbn [bind]|reflexivity].
    now rewrite entrywise_swap.
Qed.

(** ** A nan coefficient *)

Lemma SFeqb_refl_not_nan (s : spec_float) :
  SFeqb s s = false -> s = S754_nan.
Proof.
  destruct s as [b|b| |b m e]; cbn; try discriminate; try reflexivity.
  - destruct b; discriminate.
  - unfold SFeqb, SFcompare. rewrite Z.compare_refl, Pos.compare_cont_refl.
    destruct b; discriminate.
Qed.

Lemma float_ltb_nan (a b : float) :
  PrimFloat.is_nan b = true -> PrimFloat.ltb a b = false.
Proof.
  unfold PrimFloat.is_nan. rewrite FloatAxioms.ltb_spec, FloatAxioms.eqb_spec.
  intros Hn. apply negb_true_iff in Hn. apply SFeqb_refl_not_nan in Hn.
  rewrite Hn. unfold SFltb. now destruct (Prim2SF a).
Qed.

Lemma py_max_float_nan (a b : float) :
  PrimFloat.is_nan b = true -> py_max a b = a.
Proof.
  intros Hn. unfold py_max. cbn [s_ltb float_scalar].
  now rewrite float_ltb_nan.
Qed.

Lemma py_max_float_not_nan (a b : float) :
  PrimFloat.is_nan a = false -> PrimFloat.is_nan (py_max a b) = false.
Proof.
  intros Ha. unfold py_max. cbn [s_ltb float_scalar].
  destruct (PrimFloat.ltb a b) eqn:Hl; [|assumption].
  destruct (PrimFloat.is_nan b) eqn:Hb; [|reflexivity].
  rewrite float_ltb_nan in Hl by assumption. discriminate.
Qed.

(** X13.  In machine arithmetic a coefficient that is nan never enters the
    retained maximum: Python's [max] keeps its first argument unless the
    second compares greater, so a call that prints a nan lift (drag) leaves
    [CL_max] ([CD_max]) at the value it had after the reset at timestep 0. *)
Theorem nan_coefficient_is_ignored (GI PP Pop : Type)
    (mef : BC (T:=float) GI PP -> Pop -> Pop -> option (list (float * float)))
    (g : Globals float) (self : Sim (T:=float) GI PP)
    (kw : Kwargs (T:=float) Pop) r err cl cd :
  output_data mef g self kw = Some r ->
  In (Print err cl cd) (snd r) ->
  (PrimFloat.is_nan cl = true ->
   CL_max (fst r) = CL_max (reset_at_zero GI PP self (timestep kw))) /\
  (PrimFloat.is_nan cd = true ->
   CD_max (fst r) = CD_max (reset_at_zero GI PP self (timestep kw))).
Proof.
  intros Ho Hin.
  destruct (sampled g (timestep kw)) eqn:Hs.
  - destruct (output_data_sample_inv _ _ _ _ _ _ _ _ Hs Ho)
      as (c & fps & fpc & forces & err0 & cl0 & cd0
          & _ & _ & _ & _ & _ & Hcl & Hcd & ->).
    cbn [snd In] in Hin. destruct Hin as [Hp|[Hp|[]]]; [|discriminate].
    injection Hp as _ Hcl' Hcd'.
    cbn [fst CL_max CD_max with_max]. rewrite Hcl, Hcd.
    split; intros Hn; f_equal; apply py_max_float_nan.
    + rewrite <- Hcl' in Hn. exact Hn.
    + rewrite <- Hcd' in Hn. exact Hn.
  - rewrite output_data_skip in Ho by assumption. injection Ho as <-.
    now destruct Hin.
Qed.

Lemma nan_coefficient_is_ignored_witness :
  exists r err cd,
    output_data mef_nan gf_small (with_max simf_ready (Some 1%float) (Some 1%float))
      (kwf_at 9) = Some r /\
    In (Print err nan cd) (snd r) /\
    CL_max (fst r) = Some 1%float.
Proof.
  do 3 eexists.
  assert (Ho : output_data mef_nan gf_small
                 (with_max simf_ready (Some 1%float) (Some 1%float)) (kwf_at 9)
               = Some (with_max simf_ready (Some 1%float) (Some 4%float),
                       [Print 0%float nan 4%float;
                        SaveImage 9 [[(0, 1)%float]]])).
  { vm_compute. reflexivity. }
  split; [exact Ho|]. split; [now left|].
  exact (proj1 (nan_coefficient_is_ignored unit unit unit mef_nan gf_small
                  _ (kwf_at 9) _ _ _ _ Ho (or_introl eq_refl)) eq_refl).
Defined.

Lemma output_data_not_nan (GI PP Pop : Type)
    (mef : BC (T:=float) GI PP -> Pop -> Pop -> option (list (float * float)))
    (g : Globals float) (self : Sim (T:=float) GI PP)
    (kw : Kwargs (T:=float) Pop) r :
  output_data mef g self kw = Some r ->
  (forall m, CL_max self = Some m -> PrimFloat.is_nan m = false) ->
  (forall m, CD_max self = Some m -> PrimFloat.is_nan m = false) ->
  (forall m, CL_max (fst r) = Some m -> PrimFloat.is_nan m = false) /\
  (forall m, CD_max (fst r) = Some m -> PrimFloat.is_nan m = false).
Proof.
  intros Ho Hl Hd.
  assert (Hl' : forall m, CL_max (reset_at_zero GI PP self (timestep kw)) = Some m ->
                          PrimFloat.is_nan m = false).
  { unfold reset_at_zero. destruct (timestep kw =? 0)%Z; [|exact Hl].
    cbn [CL_max with_max]. intros m [= <-]. reflexivity. }
  assert (Hd' : forall m, CD_max (reset_at_zero GI PP self (timestep kw)) = Some m ->
                          PrimFloat.is_nan m = false).
  { unfold reset_at_zero. destruct (timestep kw =? 0)%Z; [|exact Hd].
    cbn [CD_max with_max]. intros m [= <-]. reflexivity. }
  destruct (sampled g (timestep kw)) eqn:Hs.
  - destruct (output_data_sample_inv _ _ _ _ _ _ _ _ Hs Ho)
      as (c & fps & fpc & forces & err0 & cl0 & cd0
          & _ & _ & _ & _ & _ & Hcl & Hcd & ->).
    cbn [fst CL_max CD_max with_max].
    split; intros m [= <-]; apply py_max_float_not_nan; auto.
  - rewrite output_data_skip in Ho by assumption. injection Ho as <-.
    fold (reset_at_zero GI PP self (timestep kw)). now split.
Qed.

(** X14.  In machine arithmetic the retained maxima are never nan: over any
    run of the hook that returns, if the attributes held no nan before (in
    particular if they were still unset), they hold none afterwards,
    whatever forces the momentum exchange reported. *)
Theorem retained_maxima_never_nan (GI PP Pop : Type)
    (mef : BC (T:=float) GI PP -> Pop -> Pop -> option (list (float * float)))
    (g : Globals float) (calls : list (Kwargs (T:=float) Pop))
    (self : Sim (T:=float) GI PP) r :
  run_output mef g self calls = Some r ->
  (forall m, CL_max self = Some m -> PrimFloat.is_nan m = false) ->
  (forall m, CD_max self = Some m -> PrimFloat.is_nan m = false) ->
  (forall m, CL_max (fst r) = Some m -> PrimFloat.is_nan m = false) /\
  (forall m, CD_max (fst r) = Some m -> PrimFloat.is_nan m = false).
Proof.
  revert self r. induction calls as [|kw rest IH]; intros self r Hr Hl Hd.
  - cbn in Hr. injection Hr as <-. now split.
  - cbn [run_output] in Hr.
    destruct (output_data mef g self kw) as [r1|] eqn:H1; [|discriminate].
    cbn [bind] in Hr.
    destruct (run_output mef g (fst r1) rest) as [r2|] eqn:H2; [|discriminate].
    cbn [bind] in Hr. injection Hr as <-. cbn [fst].
    destruct (output_data_not_nan _ _ _ _ _ _ _ _ H1 Hl Hd) as [Hl1 Hd1].
    exact (IH _ _ H2 Hl1 Hd1).
Qed.

Lemma retained_maxima_never_nan_witness :
  exists r,
    run_output mef_nan gf_small simf_ready [kwf_at 0; kwf_at 5; kwf_at 9]
      = Some r /\
    (forall m, CL_max (fst r) = Some m -> PrimFloat.is_nan m = false) /\
    (forall m, CD_max (fst r) = Some m -> PrimFloat.is_nan m = false).
Proof.
  eexists.
  assert (Hr : run_output mef_nan gf_small simf_ready
                 [kwf_at 0; kwf_at 5; kwf_at 9]
               = Some (with_max simf_ready (Some 0%float) (Some 4%float),
                       [Print 0%float nan 4%float;
                        SaveImage 9 [[(0, 1)%float]]])).
  { vm_compute. reflexivity. }
  split; [exact Hr|].
  apply (retained_maxima_never_nan unit unit unit mef_nan gf_small _ _ _ Hr);
    discriminate.
Defined.

(** ** One turn of the sweep *)

Lemma setup_inv {T} `{Scalar T} (d : Z) (g : Globals T) (k : SimKwargs T) :
  setup d = Some (g, k) ->
  d <> 0%Z /\ diam g = d /\ kw_nx k = (22 * d)%Z.
Proof.
  unfold setup, scale_factor. intros Hs.
  destruct (Z.eqb_spec d 0) as [|Hd]; [discriminate|].
  cbn [bind] in Hs.
  destruct (s_trunc _) as [ny|]; [cbn [bind] in Hs|discriminate].
  destruct (s_trunc _) as [io|]; [cbn [bind] in Hs|discriminate].
  destruct (s_trunc _) as [pr|]; [cbn [bind] in Hs|discriminate].
  destruct (s_trunc _) as [tm|]; [cbn [bind] in Hs|discriminate].
  injection Hs as <- <-. now repeat split.
Qed.

(** The sweep of the script is the one above with the constructor as
    modelled. *)
Lemma sweep_step_from_Cylinder {T} `{Scalar T} (GI PP Pop : Type)
    (mef : BC (T:=T) GI PP -> Pop -> Pop -> option (list (T * T)))
    (gi : GI) (pp : PP) (bb : Z -> Z -> BoundingBox)
    (calls : Z -> list (Kwargs (T:=T) Pop)) (d : Z) :
  sweep_step mef gi pp bb calls d
  = sweep_step_from mef
      (fun g k => Cylinder g k gi pp (bb (kw_nx k) (kw_ny k))) calls d.
Proof. reflexivity. Qed.

(** X15.  Whatever the constructor of the solver does, a turn of the sweep
    yields its pair of coefficients only for a diameter other than 0
    ([80 / diam] raises otherwise) and only after the set-up and the
    construction went through; and if the constructed solver has no
    [CL_max] yet, which [output_data] alone creates in the sources, only if
    the run called [output_data] at timestep 0. *)
Theorem sweep_step_needs {T} `{Scalar T} (GI PP Pop : Type)
    (mef : BC (T:=T) GI PP -> Pop -> Pop -> option (list (T * T)))
    (construct : Globals T -> SimKwargs T -> option (Sim (T:=T) GI PP))
    (calls : Z -> list (Kwargs (T:=T) Pop)) (d : Z) (cl cd : T) :
  sweep_step_from mef construct calls d = Some (cl, cd) ->
  d <> 0%Z /\
  exists g k sim,
    setup d = Some (g, k) /\ diam g = d /\
    construct g k = Some sim /\
    (CL_max sim = None ->
     Exists (fun kw => timestep kw = 0%Z) (calls (t_max g))).
Proof.
  unfold sweep_step_from. intros Hs.
  destruct (setup d) as [[g k]|] eqn:Hset; [cbn [bind fst snd] in Hs|discriminate].
  destruct (construct g k) as [sim|] eqn:Hc; [cbn [bind] in Hs|discriminate].
  destruct (run_output mef g sim (calls (t_max g))) as [r|] eqn:Hr;
    [cbn [bind] in Hs|discriminate].
  destruct (CL_max (fst r)) as [cl0|] eqn:Hcl; [|discriminate].
  destruct (setup_inv d g k Hset) as (Hd & Hg & _).
  split; [exact Hd|].
  exists g, k, sim. repeat (split; [reflexivity || assumption|]).
  intros Hnone.
  assert (Hdec : forall kw : Kwargs (T:=T) Pop,
             {timestep kw <> 0%Z} + {~ timestep kw <> 0%Z}).
  { intros kw. destruct (Z.eq_dec (timestep kw) 0); [right|left]; lia. }
  destruct (Forall_Exists_dec _ Hdec (calls (t_max g))) as [Hall|Hex].
  - destruct (run_output_unset _ _ _ mef g _ sim r Hall Hnone Hr) as [Hn _].
    congruence.
  - revert Hex. apply Exists_impl. intros kw Hkw. lia.
Qed.

Lemma sweep_80 :
  exists cl cd,
    sweep_step mef_small tt tt box (fun t => [kw_at 0; kw_at t]) 80
    = Some (cl, cd).
Proof.
  destruct Cylinder_80 as (sim & Hsim).
  pose proof Hsim as Hset. rewrite Cylinder_eq in Hset.
  destruct (set_boundary_conditions_head unit unit g80
              (fresh kwargs80 tt tt (box (kw_nx kwargs80) (kw_ny kwargs80)))
              sim eq_refl Hset) as (Hc & _ & _).
  destruct (run_first_last g80 sim _ (t_max g80) Hc not_sampled_80_first
              sampled_80_last ltac:(discriminate))
    as (cl & cd & r & Hr & Hcl & Hcd).
  exists cl, cd.
  exact (sweep_step_eq unit unit unit mef_small tt tt box
           (fun t => [kw_at 0; kw_at t]) 80 g80 kwargs80 sim r cl cd
           setup_80_R Hsim Hr Hcl Hcd).
Qed.

Lemma sweep_step_needs_witness :
  (exists cl cd,
     sweep_step_from mef_small
       (fun g k => Cylinder g k tt tt (box (kw_nx k) (kw_ny k)))
       (fun t => [kw_at 0; kw_at t]) 80 = Some (cl, cd) /\
     80%Z <> 0%Z) /\
  sweep_step_from mef_small
    (fun g k => Cylinder g k tt tt (box (kw_nx k) (kw_ny k)))
    (fun t => [kw_at 0; kw_at t]) 0 = None.
Proof.
  split.
  - destruct sweep_80 as (cl & cd & Hs).
    rewrite sweep_step_from_Cylinder in Hs. exists cl, cd.
    split; [exact Hs|].
    exact (proj1 (sweep_step_needs unit unit unit mef_small _ _ 80
                    cl cd Hs)).
  - destruct (sweep_step_from mef_small
                (fun g k => Cylinder g k tt tt (box (kw_nx k) (kw_ny k)))
                (fun t => [kw_at 0; kw_at t]) 0)
      as [[cl cd]|] eqn:Hs; [|reflexivity].
    now destruct (proj1 (sweep_step_needs unit unit unit mef_small _ _ 0
                           cl cd Hs)).
Defined.

(** ** The sweep keeps the Reynolds number *)

(** X16.  Over the reals the set-up goes through for every diameter but 0,
    and the scaling of the inlet velocity with [80 / diam] cancels the
    diameter: the product [prescribed_vel * diam] is [0.24], the lattice
    viscosity is [0.0024] and the [omega] handed to the solver is
    [1 / 0.5072], the same for every resolution of the sweep. *)
Theorem relaxation_independent_of_diameter (d : Z) :
  d <> 0%Z ->
  exists g k,
    setup (T:=R) d = Some (g, k) /\
    prescribed_vel g * IZR d = 0.24 /\
    visc (prescribed_vel g) d = 0.0024 /\
    kw_omega k = 1 / 0.5072.
Proof.
  intros Hd. assert (Hr : IZR d <> 0) by now apply not_0_IZR.
  unfold setup, scale_factor.
  destruct (Z.eqb_spec d 0) as [|_]; [contradiction|].
  cbn [bind s_trunc R_scalar Rtrunc].
  do 2 eexists. split; [reflexivity|].
  cbn [prescribed_vel kw_omega].
  unfold omega, visc, dec. cbn [s_add s_mul s_div of_Z R_scalar].
  assert (Hv : 3 / 1000 * (80 / IZR d) * IZR d = 24 / 100)
    by (field; assumption).
  rewrite Hv. split; [lra|]. split; [lra|]. f_equal. lra.
Qed.

Lemma relaxation_independent_of_diameter_witness :
  exists g k,
    setup (T:=R) 30 = Some (g, k) /\
    prescribed_vel g * 30 = 0.24 /\
    visc (prescribed_vel g) 30 = 0.0024 /\
    kw_omega k = 1 / 0.5072.
Proof.
  exact (relaxation_independent_of_diameter 30 ltac:(discriminate)).
Defined.

(** In machine arithmetic the six diameters of the commented-out list get
    the same [omega] to the last bit, while the channel width of [diam = 30]
    comes out as 122 nodes: [4.1 * 30] is rounded below 123. *)
Example setup_sweep_float :
  map (fun d => option_map (fun gk => (kw_omega (snd gk), kw_ny (snd gk)))
                  (setup (T:=float) d))
      [10; 20; 30; 40; 60; 80]%Z
  = map (fun ny => Some (0x1.f8bb5b4169cabp+0%float, ny))
      [41; 82; 122; 164; 245; 328]%Z.
Proof. vm_compute. reflexivity. Qed.
